(** * disposable-email-domains: the list generator

    A shallow embedding of [internal/generator/generator.go] and of
    [splitLines] from [main.go], with the properties of the published
    deny and allow lists.

    Go strings are byte strings: they are modelled by [string], whose
    characters are the 256 byte values.  A Go [map[string]struct{}] is a
    [gset string].  Functions of the Go standard library and of
    [golang.org/x/net/publicsuffix] that depend on data outside the
    repository (Unicode tables, the public suffix list, the JSON reader,
    the network, the file system) are operations of type classes; the
    repository's own functions are defined over them. *)

From Stdlib Require Import ZArith NArith Ascii String.
From stdpp Require Import base decidable option list sorting gmap strings pretty.

(** ** Package [strings] *)

Module strings.

(** [utf8.RuneSelf]: bytes below it are single-byte (ASCII) runes. *)
Definition RuneSelf : N := 128.

Definition isASCIIByte (c : ascii) : bool := (N_of_ascii c <? RuneSelf)%N.

Definition isUpperByte (c : ascii) : bool :=
  (N_of_ascii "A"%char <=? N_of_ascii c)%N
  && (N_of_ascii c <=? N_of_ascii "Z"%char)%N.

(** [c += 'a' - 'A'] for an upper-case ASCII letter. *)
Definition lowerByte (c : ascii) : ascii :=
  if isUpperByte c then ascii_of_N (N_of_ascii c + 32) else c.

(** The table [asciiSpace]: tab, newline, vertical tab, form feed,
    carriage return and space. *)
Definition asciiSpace (c : ascii) : bool :=
  match N_of_ascii c with
  | 9%N | 10%N | 11%N | 12%N | 13%N | 32%N => true
  | _ => false
  end.

Fixpoint isASCII (s : string) : bool :=
  match s with
  | EmptyString => true
  | String c s' => isASCIIByte c && isASCII s'
  end.

Fixpoint hasUpper (s : string) : bool :=
  match s with
  | EmptyString => false
  | String c s' => isUpperByte c || hasUpper s'
  end.

Fixpoint mapBytes (f : ascii -> ascii) (s : string) : string :=
  match s with
  | EmptyString => EmptyString
  | String c s' => String (f c) (mapBytes f s')
  end.

Fixpoint drop (n : nat) (s : string) : string :=
  match n, s with
  | O, _ => s
  | S n', String _ s' => drop n' s'
  | S _, EmptyString => EmptyString
  end.

Fixpoint take (n : nat) (s : string) : string :=
  match n, s with
  | S n', String c s' => String c (take n' s')
  | _, _ => EmptyString
  end.

Fixpoint HasPrefix (s prefix : string) {struct prefix} : bool :=
  match prefix, s with
  | EmptyString, _ => true
  | String p prefix', String c s' => Ascii.eqb c p && HasPrefix s' prefix'
  | String _ _, EmptyString => false
  end.

Definition HasSuffix (s suffix : string) : bool :=
  HasPrefix (String.rev s) (String.rev suffix).

Definition TrimPrefix (s prefix : string) : string :=
  if HasPrefix s prefix then drop (String.length prefix) s else s.

Definition TrimSuffix (s suffix : string) : string :=
  if HasSuffix s suffix
  then take (String.length s - String.length suffix) s
  else s.

(** [strings.Split(s, sep)] for a one-byte separator [sep]: the pieces
    between the occurrences of [sep]; a string without [sep] is its
    only piece, the empty string included. *)
Fixpoint Split (s : string) (sep : ascii) : list string :=
  match s with
  | EmptyString => [EmptyString]
  | String c s' =>
      if Ascii.eqb c sep then EmptyString :: Split s' sep
      else match Split s' sep with
           | piece :: pieces => String c piece :: pieces
           | [] => [String c EmptyString]
           end
  end.

(** [strings.Count(s, substr)] for a one-byte [substr]. *)
Fixpoint Count (s : string) (c : ascii) : nat :=
  match s with
  | EmptyString => 0
  | String c' s' => (if Ascii.eqb c' c then 1 else 0) + Count s' c
  end.

Fixpoint Join (elems : list string) (sep : string) : string :=
  match elems with
  | [] => EmptyString
  | [e] => e
  | e :: rest => e +:+ sep +:+ Join rest sep
  end.

(** What the Unicode tables decide.  [ToLower] and [TrimSpace] have a
    byte-wise path, taken as long as the bytes they look at are ASCII;
    on a byte of [RuneSelf] or more they hand over to the rune-wise
    functions below. *)
Class Unicode := {
  (** [strings.Map(unicode.ToLower, s)] *)
  Map_ToLower : string -> string;
  (** [strings.TrimFunc(s, unicode.IsSpace)] *)
  TrimFunc_IsSpace : string -> string;
  (** [strings.TrimRightFunc(s, unicode.IsSpace)] *)
  TrimRightFunc_IsSpace : string -> string;
}.

Definition ToLower {U : Unicode} (s : string) : string :=
  if isASCII s then
    if hasUpper s then mapBytes lowerByte s else s
  else Map_ToLower s.

(** Where a scan of [TrimSpace] ends: at a byte that is kept (or at
    the end of the string), or at a byte that is not ASCII. *)
Inductive scan : Type :=
| Kept (rest : string)
| NonASCII (rest : string).

(** The first loop of [TrimSpace]: [rest] is [s[start:]]. *)
Fixpoint scanLeft (s : string) : scan :=
  match s with
  | EmptyString => Kept EmptyString
  | String c s' =>
      if isASCIIByte c then
        if asciiSpace c then scanLeft s' else Kept s
      else NonASCII s
  end.

(** The second loop of [TrimSpace], on [s[start:]]: [rest] is
    [s[start:stop]]. *)
Fixpoint scanRight (s : string) : scan :=
  match s with
  | EmptyString => Kept EmptyString
  | String c s' =>
      match scanRight s' with
      | Kept EmptyString =>
          if isASCIIByte c then
            if asciiSpace c then Kept EmptyString
            else Kept (String c EmptyString)
          else NonASCII (String c EmptyString)
      | Kept rest => Kept (String c rest)
      | NonASCII rest => NonASCII (String c rest)
      end
  end.

Definition TrimSpace {U : Unicode} (s : string) : string :=
  match scanLeft s with
  | NonASCII rest => TrimFunc_IsSpace rest
  | Kept rest =>
      match scanRight rest with
      | NonASCII rest' => TrimRightFunc_IsSpace rest'
      | Kept rest' => rest'
      end
  end.

(** Go's [<] on strings: byte-wise lexicographic order, a proper
    prefix first. *)
Definition lt (s t : string) : Prop := String.compare s t = Lt.

End strings.

(** ** Package [sort] *)

Module sort.

(** [sort.Strings] puts a slice in increasing order.  The order on
    strings is total and antisymmetric, so the result does not depend
    on the sorting algorithm; a merge sort stands for Go's. *)
Definition Strings (x : list string) : list string :=
  merge_sort String.le x.

End sort.

(** ** Package [publicsuffix] *)

Module publicsuffix.

(** [publicsuffix.EffectiveTLDPlusOne] reads the public suffix list
    compiled into the library.  [None] stands for a non-nil error (the
    string returned with it is not used by the generator). *)
Class Table := EffectiveTLDPlusOne : string -> option string.

End publicsuffix.

(** ** The reconciler and the normalizer of package [generator] *)

Section Lists.
Context {U : strings.Unicode} {T : publicsuffix.Table}.

Definition normalizeAndFilter (in_ : list string) : list string :=
  foldl (fun out s =>
           let s := strings.TrimSpace (strings.ToLower s) in
           if bool_decide (s = "") || strings.HasPrefix s "#" then out
           else out ++ [s])
        [] in_.

Definition cleanDomains (in_ : list string) : list string :=
  foldl (fun out s =>
           let s := strings.TrimPrefix s "*." in
           let s := strings.TrimPrefix s "." in
           out ++ [s])
        [] in_.

(** [None] is the error case. *)
Definition effectiveTLDPlusOne (domain : string) : option string :=
  let domain := strings.TrimSuffix domain "." in
  if bool_decide (domain = "") then None
  else publicsuffix.EffectiveTLDPlusOne domain.

Definition removeSecureDomainsByETLD1 (deny secure : list string)
  : list string :=
  let sec : gset string :=
    foldl (fun sec s =>
             match effectiveTLDPlusOne s with
             | Some et => {[ et ]} ∪ sec
             | None => {[ s ]} ∪ sec
             end)
          ∅ secure in
  foldl (fun out d =>
           let et := match effectiveTLDPlusOne d with
                     | Some et => et
                     | None => d
                     end in
           if bool_decide (et ∈ sec) then out else out ++ [d])
        [] deny.

(** The keys of a Go map are visited in an order that changes from run
    to run; [elements] is one such order, and the sort that follows
    makes the result independent of it. *)
Definition uniqueSorted (in_ : list string) : list string :=
  let set : gset string :=
    foldl (fun set s => if bool_decide (s ≠ "") then {[ s ]} ∪ set else set)
          ∅ in_ in
  let out := foldl (fun out s => out ++ [s]) [] (elements set) in
  sort.Strings out.

Definition difference (a b : list string) : list string :=
  let sb : gset string := foldl (fun sb s => {[ s ]} ∪ sb) ∅ b in
  foldl (fun out s => if bool_decide (s ∈ sb) then out else out ++ [s])
        [] a.

(** Lines 51 to 61 of [Run]: from the gathered deny and allow
    candidates and the local secure list to the two published lists,
    deny first. *)
Definition reconcile (deny allow SecureLocal : list string)
  : list string * list string :=
  let deny := normalizeAndFilter deny in
  let allow := normalizeAndFilter allow in
  let secure := normalizeAndFilter SecureLocal in
  let deny := cleanDomains deny in
  let allow := cleanDomains allow in
  let secure := cleanDomains secure in
  let deny := removeSecureDomainsByETLD1 deny secure in
  let deny := difference (uniqueSorted deny) (uniqueSorted allow) in
  let allow := uniqueSorted (allow ++ secure) in
  (deny, allow).

End Lists.

(** ** [splitLines] of package [main] *)

(** The loop of [splitLines] from index [i] on, with [start <= i]:
    [line] holds the bytes [s[start:i]] and [s] the bytes from [i]. *)
Fixpoint splitLines_loop (line s : string) (out : list string)
  : list string * string :=
  match s with
  | EmptyString => (out, line)
  | String c s' =>
      if Ascii.eqb c "010"%char then
        let line := if strings.HasSuffix line (String "013"%char EmptyString)
                    then strings.take (String.length line - 1) line
                    else line in
        splitLines_loop EmptyString s' (out ++ [line])
      else splitLines_loop (line +:+ String c EmptyString) s' out
  end.

Definition splitLines (s : string) : list string :=
  let '(out, line) := splitLines_loop EmptyString s [] in
  let line := if strings.HasSuffix line (String "013"%char EmptyString)
              then strings.take (String.length line - 1) line
              else line in
  if bool_decide (line ≠ "") then out ++ [line] else out.

(** ** Errors *)

(** A Go [error] value, as far as the generator looks at it: its message
    and, for an error built by [fmt.Errorf] with a [%w] verb, the error
    it wraps. *)
Inductive error : Type :=
| errorString (msg : string)
| wrapError (msg : string) (err : error).

Definition Error (e : error) : string :=
  match e with
  | errorString msg => msg
  | wrapError msg _ => msg
  end.

Definition Unwrap (e : error) : option error :=
  match e with
  | errorString _ => None
  | wrapError _ err => Some err
  end.

(** A pair [(value, err)] of which the caller reads the value only when
    [err == nil]. *)
Inductive result (A : Type) : Type :=
| Ok (a : A)
| Err (e : error).
Arguments Ok {A} a.
Arguments Err {A} e.

(** ** Package [encoding/json] *)

Module json.

(** A JSON value.  It is only ever inspected one level deep, so no
    induction principle is generated for the nested type. *)
#[local] Unset Elimination Schemes.
Inductive Value : Type :=
| Null
| Bool (b : bool)
| Number (literal : string)
| Str (s : string)
| Array (elems : list Value)
| Object (members : list (string * Value)).
#[local] Set Elimination Schemes.

Class Codec := {
  (** The scanner: the value that a byte content denotes, or a
      [*json.SyntaxError]. *)
  parse : string -> result Value;
  (** The [*json.UnmarshalTypeError] for a value that does not fit the
      Go type it is decoded into. *)
  typeError : Value -> error;
  (** [json.MarshalIndent(arr, "", "  ")] for a [[]string]. *)
  MarshalIndent : list string -> result string;
}.

(** Decoding into one [string] element of a fresh slice: a JSON string
    is stored, [null] leaves the zero value, anything else is a type
    error. *)
Definition element {J : Codec} (v : Value) : result string :=
  match v with
  | Str s => Ok s
  | Null => Ok ""
  | _ => Err (typeError v)
  end.

(** The elements in order; the earliest type error is the one
    reported. *)
Fixpoint elements {J : Codec} (vs : list Value) : result (list string) :=
  match vs with
  | [] => Ok []
  | v :: vs' =>
      match element v with
      | Err e => Err e
      | Ok s =>
          match elements vs' with
          | Err e => Err e
          | Ok l => Ok (s :: l)
          end
      end
  end.

(** [json.Unmarshal(b, &arr)] with [var arr []string]: [null] leaves
    [arr] nil and is no error; an array is decoded element by element;
    any other value is a type error. *)
Definition Unmarshal {J : Codec} (b : string) : result (list string) :=
  match parse b with
  | Err e => Err e
  | Ok Null => Ok []
  | Ok (Array vs) => elements vs
  | Ok v => Err (typeError v)
  end.

End json.

(** ** The outside world *)

Record Response := { StatusCode : Z; Body : string }.

(** The network, the clock and the file system.  Each operation may
    change the world and reports as its Go counterpart does.  The
    context [ctx] of [Run] is part of the world.  Closing a response
    body returns nothing that the generator reads and is left out. *)
Class Platform (World : Type) := {
  (** Whether [http.NewRequestWithContext] accepts the URL; if not it
      returns a nil request. *)
  http_NewRequest_ok : string -> bool;
  (** [client.Do(req)]: the response, if any, and the error, if any. *)
  client_Do : string -> World -> World * (option Response * option error);
  (** [io.ReadAll(io.LimitReader(body, limit))] *)
  io_ReadAll_LimitReader : string -> Z -> World -> World * result string;
  (** The [select] on [time.After] of so many milliseconds and on
      [ctx.Done()]: [None] when the timer fires, [Some (ctx.Err())] when
      the context is done. *)
  select_After_Done : Z -> World -> World * option error;
  filepath_Dir : string -> string;
  os_MkdirAll : string -> World -> World * option error;
  os_WriteFile : string -> string -> World -> World * option error;
}.

(** A computation on the world that returns or panics. *)
Inductive outcome (A : Type) : Type :=
| Ret (a : A)
| Panic.
Arguments Ret {A} a.
Arguments Panic {A}.

Definition M (World A : Type) : Type := World -> World * outcome A.

Definition ret {World A} (a : A) : M World A := fun w => (w, Ret a).

Definition panic {World A} : M World A := fun w => (w, Panic).

Definition bind {World A B} (m : M World A) (k : A -> M World B) : M World B :=
  fun w =>
    match m w with
    | (w', Ret a) => k a w'
    | (w', Panic) => (w', Panic)
    end.

Definition lift {World A} (op : World -> World * A) : M World A :=
  fun w => let '(w', a) := op w in (w', Ret a).

Declare Scope go_scope.
Delimit Scope go_scope with go.
Notation "x <- m ;; k" := (bind m (fun x => k))
  (at level 100, m at next level, right associativity) : go_scope.

(** A [for _, x := range l] loop whose body updates [s]. *)
Fixpoint forRange {World A S} (body : S -> A -> M World S) (s : S) (l : list A)
  : M World S :=
  match l with
  | [] => ret s
  | x :: l' => bind (body s x) (fun s' => forRange body s' l')
  end.

(** ** The fetcher, the extractors, the writer and [Run] *)

Record Config := {
  TextDeny : list string;
  JSONDeny : list string;
  TextAllow : list string;
  JSONAllow : list string;
  SecureLocal : list string;
  TextDenyOut : string;
  JSONDenyOut : string;
  TextAllowOut : string;
  JSONAllowOut : string;
}.

Section Generator.
Context {U : strings.Unicode} {T : publicsuffix.Table} {J : json.Codec}.
Context {World : Type} {P : Platform World}.

Local Open Scope go_scope.

(** One attempt of [fetch] judged: the response to read, or the value
    of [lastErr] to carry on with. *)
Definition judge (resp : option Response) (err : option error)
  : Response + option error :=
  match resp with
  | Some rsp =>
      if bool_decide (err = None)
         && ((200 <=? StatusCode rsp) && (StatusCode rsp <? 300))%Z
      then inl rsp
      else inr (Some (errorString ("http " +:+ pretty (StatusCode rsp))))
  | None => inr err
  end.

(** The loop of [fetch] with [attempts] rounds left, [i] being the loop
    counter.  A nil request makes [req.Header.Set] panic. *)
Fixpoint fetch_loop (attempts : nat) (i : Z) (lastErr : option error)
  (url : string) : M World (result string) :=
  match attempts with
  | O =>
      ret (match lastErr with Some e => Err e | None => Ok "" end)
  | S attempts' =>
      if http_NewRequest_ok url then
        r <- lift (client_Do url) ;;
        match judge r.1 r.2 with
        | inl rsp => lift (io_ReadAll_LimitReader (Body rsp) (Z.shiftl 10 20))
        | inr lastErr =>
            done <- lift (select_After_Done ((i + 1) * 500)) ;;
            match done with
            | Some ctxErr => ret (Err ctxErr)
            | None => fetch_loop attempts' (i + 1) lastErr url
            end
        end
      else panic
  end.

Definition fetch (url : string) : M World (result string) :=
  fetch_loop 3 0 None url.

Definition fetchTextLines (url : string) : M World (result (list string)) :=
  r <- fetch url ;;
  match r with
  | Err err => ret (Err err)
  | Ok b => ret (Ok (strings.Split b "010"%char))
  end.

Definition fetchJSONStrings (url : string) : M World (result (list string)) :=
  r <- fetch url ;;
  match r with
  | Err err => ret (Err err)
  | Ok b =>
      match json.Unmarshal b with
      | Err err => ret (Err (wrapError ("decode json: " +:+ Error err) err))
      | Ok arr => ret (Ok arr)
      end
  end.

(** The test that makes [obtainAllDomains] pass over a line of a source
    declaration. *)
Definition skipURL (u : string) : bool :=
  strings.HasPrefix u "#" || bool_decide (strings.TrimSpace u = "").

(** One round of either loop of [obtainAllDomains]; the state is
    [(out, errs)]. *)
Definition obtainFrom (get : string -> M World (result (list string)))
  (st : list string * list string) (u : string)
  : M World (list string * list string) :=
  let '(out, errs) := st in
  if skipURL u then ret (out, errs)
  else
    r <- get u ;;
    match r with
    | Err err => ret (out, errs ++ [u +:+ ": " +:+ Error err])
    | Ok lines => ret (out ++ lines, errs)
    end.

Definition obtainAllDomains (textURLs jsonURLs : list string)
  : M World (list string * option error) :=
  st <- forRange (obtainFrom fetchTextLines) ([], []) textURLs ;;
  st <- forRange (obtainFrom fetchJSONStrings) st jsonURLs ;;
  let '(out, errs) := st in
  if (0 <? length errs)%nat
  then ret (out, Some (errorString (strings.Join errs "; ")))
  else ret (out, None).

Definition ensureDir (dir : string) : M World (option error) :=
  if bool_decide (dir = ".") || bool_decide (dir = "") then ret None
  else lift (os_MkdirAll dir).

Definition writeText (path : string) (lines : list string)
  : M World (option error) :=
  err <- ensureDir (filepath_Dir path) ;;
  match err with
  | Some err => ret (Some err)
  | None =>
      lift (os_WriteFile path (strings.Join lines (String "010"%char "")))
  end.

Definition writeJSON (path : string) (arr : list string)
  : M World (option error) :=
  err <- ensureDir (filepath_Dir path) ;;
  match err with
  | Some err => ret (Some err)
  | None =>
      match json.MarshalIndent arr with
      | Err err => ret (Some err)
      | Ok b => lift (os_WriteFile path b)
      end
  end.

Definition writeOutputs (cfg : Config) (deny allow : list string)
  : M World (option error) :=
  err <- writeText (TextDenyOut cfg) deny ;;
  match err with
  | Some err => ret (Some err)
  | None =>
  err <- writeJSON (JSONDenyOut cfg) deny ;;
  match err with
  | Some err => ret (Some err)
  | None =>
  err <- writeText (TextAllowOut cfg) allow ;;
  match err with
  | Some err => ret (Some err)
  | None =>
  err <- writeJSON (JSONAllowOut cfg) allow ;;
  match err with
  | Some err => ret (Some err)
  | None => ret None
  end end end end.

(** Lines 39 to 49 of [Run]: the diagnostics of the two gathering
    passes, joined. *)
Definition combineFetchErrors (derr aerr : option error) : option error :=
  match derr, aerr with
  | None, None => None
  | _, _ =>
      let parts := [] in
      let parts := match derr with
                   | Some e => parts ++ [Error e]
                   | None => parts
                   end in
      let parts := match aerr with
                   | Some e => parts ++ [Error e]
                   | None => parts
                   end in
      Some (errorString (strings.Join parts "; "))
  end.

Definition Run (cfg : Config) : M World (nat * nat * option error) :=
  d <- obtainAllDomains (TextDeny cfg) (JSONDeny cfg) ;;
  let '(deny, derr) := d in
  a <- obtainAllDomains (TextAllow cfg) (JSONAllow cfg) ;;
  let '(allow, aerr) := a in
  let err := combineFetchErrors derr aerr in
  let '(deny, allow) := reconcile deny allow (SecureLocal cfg) in
  werr <- writeOutputs cfg deny allow ;;
  match werr with
  | Some werr =>
      match err with
      | Some err =>
          ret (0, 0, Some (wrapError (Error err +:+ "; " +:+ Error werr) werr))
      | None => ret (0, 0, Some werr)
      end
  | None => ret (length deny, length allow, err)
  end.

End Generator.

(** ** Test doubles

    Concrete instances of the classes above, on which the generator can
    be run: a suffix table with a handful of rules, a JSON codec that
    knows a few documents, and a world made of a canned web and a file
    system in which some paths cannot be written. *)

Module Sim.

(** Strings that only hold ASCII bytes never reach the rune-wise
    functions; this instance leaves any other string as it is. *)
Definition asciiOnly : strings.Unicode := {|
  strings.Map_ToLower := id;
  strings.TrimFunc_IsSpace := id;
  strings.TrimRightFunc_IsSpace := id;
|}.

(** Suffix rules, as lists of labels. *)
Definition rules : list (list string) :=
  [["com"]; ["net"]; ["org"]; ["io"]; ["uk"]; ["co"; "uk"]].

(** The number of labels of the public suffix: the longest rule that
    ends the domain, and one label when no rule does. *)
Definition suffixLabels (ls : list string) : nat :=
  foldr (fun r n => if bool_decide (r `suffix_of` ls)
                    then Nat.max (length r) n else n)
        1 rules.

Definition table : publicsuffix.Table := fun domain =>
  let ls := strings.Split domain "."%char in
  if bool_decide ("" ∈ ls) then None
  else
    let n := suffixLabels ls in
    if (length ls <=? n)%nat then None
    else Some (strings.Join (drop (length ls - S n) ls) ".").

Definition quote : string := String "034"%char "".

(** The documents the codec can read. *)
Definition documents : list (string * json.Value) :=
  [ ("null", json.Null);
    ("[]", json.Array []);
    ("[null]", json.Array [json.Null]);
    ("[1]", json.Array [json.Number "1"]);
    ("{}", json.Object []);
    ("[" +:+ quote +:+ "trusted.org" +:+ quote +:+ "]",
     json.Array [json.Str "trusted.org"]) ].

Definition kind (v : json.Value) : string :=
  match v with
  | json.Null => "null"
  | json.Bool _ => "bool"
  | json.Number _ => "number"
  | json.Str _ => "string"
  | json.Array _ => "array"
  | json.Object _ => "object"
  end.

Definition codec : json.Codec := {|
  json.parse b :=
    match list_find (fun d => d.1 = b) documents with
    | Some (_, d) => Ok d.2
    | None => Err (errorString "invalid character looking for beginning of value")
    end;
  json.typeError v := errorString ("json: cannot unmarshal " +:+ kind v);
  json.MarshalIndent arr :=
    Ok (match arr with
        | [] => "[]"
        | _ =>
            "[" +:+ String "010"%char "" +:+
            strings.Join ((fun s => "  " +:+ quote +:+ s +:+ quote) <$> arr)
                         ("," +:+ String "010"%char "") +:+
            String "010"%char "" +:+ "]"
        end);
|}.

Record World := {
  (** what each URL answers *)
  web : list (string * Response);
  (** the paths that cannot be written *)
  readOnly : list string;
  (** the files written, the latest first *)
  files : list (string * string);
  (** the milliseconds spent waiting *)
  waited : Z;
}.

Definition isControl (c : ascii) : bool :=
  (N_of_ascii c <? 32)%N || (N_of_ascii c =? 127)%N.

Fixpoint hasControl (s : string) : bool :=
  match s with
  | EmptyString => false
  | String c s' => isControl c || hasControl s'
  end.

Definition dir (path : string) : string :=
  match reverse (strings.Split path "/"%char) with
  | _ :: (_ :: _) as parents => strings.Join (reverse parents) "/"
  | _ => "."
  end.

Definition platform : Platform World := {|
  http_NewRequest_ok url := negb (hasControl url);
  client_Do url w :=
    match list_find (fun p => p.1 = url) (web w) with
    | Some (_, p) => (w, (Some p.2, None))
    | None => (w, (None, Some (errorString "no such host")))
    end;
  io_ReadAll_LimitReader body limit w :=
    (w, Ok (strings.take (Z.to_nat limit) body));
  select_After_Done ms w :=
    ({| web := web w; readOnly := readOnly w; files := files w;
        waited := waited w + ms |}, None);
  filepath_Dir := dir;
  os_MkdirAll dir w := (w, None);
  os_WriteFile path content w :=
    if bool_decide (path ∈ readOnly w)
    then (w, Some (errorString ("open " +:+ path +:+ ": permission denied")))
    else ({| web := web w; readOnly := readOnly w;
             files := (path, content) :: files w; waited := waited w |},
          None);
|}.

(** A run to try the generator on: two deny sources, of which the
    second cannot be reached, one allow source in JSON, and an allow
    text file that cannot be written. *)
Definition denyURL : string := "http://lists.test/deny.txt".
Definition goneURL : string := "http://lists.test/gone.txt".
Definition allowURL : string := "http://lists.test/allow.json".

Definition world : World := {|
  web :=
    [ (denyURL,
       {| StatusCode := 200;
          Body := "Example.COM" +:+ String "013"%char (String "010"%char "")
                  +:+ "*.spam.io" +:+ String "010"%char "" |});
      (allowURL, {| StatusCode := 200; Body := "null" |}) ];
  readOnly := ["lists/allow.txt"];
  files := [];
  waited := 0;
|}.

Definition config : Config := {|
  TextDeny := [denyURL; "# mirrors"; goneURL];
  JSONDeny := [];
  TextAllow := [];
  JSONAllow := [allowURL];
  SecureLocal := ["good.net"];
  TextDenyOut := "lists/deny.txt";
  JSONDenyOut := "lists/deny.json";
  TextAllowOut := "lists/allow.txt";
  JSONAllowOut := "lists/allow.json";
|}.

End Sim.

(** More test doubles, for the fetcher. *)

Module SimNet.

(** A network that resets the connection until half a second has been
    spent waiting, and then answers as [Sim.platform]. *)
Definition flaky : Platform Sim.World := {|
  http_NewRequest_ok := http_NewRequest_ok (Platform:=Sim.platform);
  client_Do url w :=
    if (Sim.waited w <? 500)%Z
    then (w, (None, Some (errorString "connection reset by peer")))
    else client_Do (Platform:=Sim.platform) url w;
  io_ReadAll_LimitReader := io_ReadAll_LimitReader (Platform:=Sim.platform);
  select_After_Done := select_After_Done (Platform:=Sim.platform);
  filepath_Dir := filepath_Dir (Platform:=Sim.platform);
  os_MkdirAll := os_MkdirAll (Platform:=Sim.platform);
  os_WriteFile := os_WriteFile (Platform:=Sim.platform);
|}.

(** A context whose deadline falls [deadline] milliseconds into the
    waiting: a wait that would go past it is cut short. *)
Definition hurried (deadline : Z) : Platform Sim.World := {|
  http_NewRequest_ok := http_NewRequest_ok (Platform:=Sim.platform);
  client_Do := client_Do (Platform:=Sim.platform);
  io_ReadAll_LimitReader := io_ReadAll_LimitReader (Platform:=Sim.platform);
  select_After_Done ms w :=
    if (deadline <? Sim.waited w + ms)%Z
    then (w, Some (errorString "context deadline exceeded"))
    else select_After_Done (Platform:=Sim.platform) ms w;
  filepath_Dir := filepath_Dir (Platform:=Sim.platform);
  os_MkdirAll := os_MkdirAll (Platform:=Sim.platform);
  os_WriteFile := os_WriteFile (Platform:=Sim.platform);
|}.

(** A declaration line that holds a tab is no URL. *)
Definition badURL : string :=
  "http://lists.test/deny.txt" +:+ String "009"%char "".

(** A configuration whose deny declaration holds such a line. *)
Definition badConfig : Config := {|
  TextDeny := ["# mirrors"; badURL];
  JSONDeny := [];
  TextAllow := [];
  JSONAllow := [Sim.allowURL];
  SecureLocal := [];
  TextDenyOut := "lists/deny.txt";
  JSONDenyOut := "lists/deny.json";
  TextAllowOut := "lists/allow.txt";
  JSONAllowOut := "lists/allow.json";
|}.

End SimNet.

(** More test doubles, for the writer and for [Run]. *)

Module SimOut.

(** What the file at [path] holds: the content of its latest write. *)
Definition readFile (w : Sim.World) (path : string) : option string :=
  (fun f => f.2.2) <$> list_find (fun f => f.1 = path) (Sim.files w).

Definition backslash : string := String "092"%char "".

(** The escapes of a JSON string literal, for the bytes met here: the
    newline, the quote and the backslash. *)
Fixpoint escape (s : string) : string :=
  match s with
  | EmptyString => EmptyString
  | String c s' =>
      (if Ascii.eqb c "010"%char then backslash +:+ "n"
       else if Ascii.eqb c "034"%char then backslash +:+ Sim.quote
       else if Ascii.eqb c "092"%char then backslash +:+ backslash
       else String c "")
      +:+ escape s'
  end.

(** An array of strings, indented by two spaces, one element a line. *)
Definition encode (arr : list string) : string :=
  match arr with
  | [] => "[]"
  | _ =>
      "[" +:+ String "010"%char "" +:+
      strings.Join ((fun s => "  " +:+ Sim.quote +:+ escape s +:+ Sim.quote)
                      <$> arr)
                   ("," +:+ String "010"%char "") +:+
      String "010"%char "" +:+ "]"
  end.

(** An array on one line whose first element is [b\na], the newline
    written as its escape, and whose second element is [c]. *)
Definition linesDocument : string :=
  "[" +:+ Sim.quote +:+ "b" +:+ backslash +:+ "na" +:+ Sim.quote +:+ ","
  +:+ Sim.quote +:+ "c" +:+ Sim.quote +:+ "]".

(** The documents the codec can read: those of the sources below, and
    what it writes itself for the lists published below. *)
Definition documents : list (string * json.Value) :=
  [ ("null", json.Null);
    ("{}", json.Object []);
    (linesDocument,
     json.Array [json.Str ("b" +:+ String "010"%char "a"); json.Str "c"]);
    (encode ["example.com"; "spam.io"],
     json.Array [json.Str "example.com"; json.Str "spam.io"]);
    (encode ["good.net"], json.Array [json.Str "good.net"]) ].

Definition codec : json.Codec := {|
  json.parse b :=
    match list_find (fun d => d.1 = b) documents with
    | Some (_, d) => Ok d.2
    | None => Err (errorString "invalid character looking for beginning of value")
    end;
  json.typeError v := errorString ("json: cannot unmarshal " +:+ Sim.kind v);
  json.MarshalIndent arr := Ok (encode arr);
|}.

(** A run whose only source is a JSON deny source that answers
    [linesDocument]; every file can be written. *)
Definition linesURL : string := "http://lists.test/lines.json".

Definition linesWorld : Sim.World := {|
  Sim.web := [ (linesURL, {| StatusCode := 200; Body := linesDocument |}) ];
  Sim.readOnly := [];
  Sim.files := [];
  Sim.waited := 0;
|}.

Definition linesConfig : Config := {|
  TextDeny := [];
  JSONDeny := [linesURL];
  TextAllow := [];
  JSONAllow := [];
  SecureLocal := [];
  TextDenyOut := "lists/deny.txt";
  JSONDenyOut := "lists/deny.json";
  TextAllowOut := "lists/allow.txt";
  JSONAllowOut := "lists/allow.json";
|}.

(** The web of [Sim.world], and every file can be written. *)
Definition writableWorld : Sim.World := {|
  Sim.web := Sim.web Sim.world;
  Sim.readOnly := [];
  Sim.files := [];
  Sim.waited := 0;
|}.

(** The world that the run on [Sim.config] leaves of it. *)
Definition writtenWorld : Sim.World := {|
  Sim.web := Sim.web Sim.world;
  Sim.readOnly := [];
  Sim.files :=
    [ ("lists/allow.json",
       "[" +:+ String "010"%char "  " +:+ Sim.quote +:+ "good.net"
       +:+ Sim.quote +:+ String "010"%char "]");
      ("lists/allow.txt", "good.net");
      ("lists/deny.json",
       "[" +:+ String "010"%char "  " +:+ Sim.quote +:+ "example.com"
       +:+ Sim.quote +:+ "," +:+ String "010"%char "  " +:+ Sim.quote
       +:+ "spam.io" +:+ Sim.quote +:+ String "010"%char "]");
      ("lists/deny.txt", "example.com" +:+ String "010"%char "spam.io") ];
  Sim.waited := 3000;
|}.

(** A run in which both gathering passes leave a diagnostic, and a
    write fails: a deny source cannot be reached, an allow source
    answers an object, and the allow text file cannot be written. *)
Definition brokenURL : string := "http://lists.test/broken.json".

Definition brokenWorld : Sim.World := {|
  Sim.web :=
    Sim.web Sim.world ++ [ (brokenURL, {| StatusCode := 200; Body := "{}" |}) ];
  Sim.readOnly := ["lists/allow.txt"];
  Sim.files := [];
  Sim.waited := 0;
|}.

Definition brokenConfig : Config := {|
  TextDeny := [Sim.denyURL; Sim.goneURL];
  JSONDeny := [];
  TextAllow := [];
  JSONAllow := [Sim.allowURL; brokenURL];
  SecureLocal := ["good.net"];
  TextDenyOut := "lists/deny.txt";
  JSONDenyOut := "lists/deny.json";
  TextAllowOut := "lists/allow.txt";
  JSONAllowOut := "lists/allow.json";
|}.

End SimOut.

(** ** Vocabulary of the specification *)

Section Vocabulary.
Context {U : strings.Unicode} {T : publicsuffix.Table}.

(** The key by which [removeSecureDomainsByETLD1] compares an entry: its
    eTLD+1 when that can be computed, the entry itself otherwise. *)
Definition etld1Key (s : string) : string :=
  match effectiveTLDPlusOne s with
  | Some et => et
  | None => s
  end.

(** The prefix-strip pass as the specification words it: one leading
    [*.] is removed if present, else one leading [.] if present. *)
Definition stripWildcardPrefix (s : string) : string :=
  if strings.HasPrefix s "*." then strings.drop 2 s
  else if strings.HasPrefix s "." then strings.drop 1 s
  else s.

(** The Domain Set invariant on one entry, and on a list. *)
Definition wellFormedDomain (s : string) : Prop :=
  s ≠ "" ∧ strings.ToLower s = s
  ∧ strings.HasPrefix s "*." = false ∧ strings.HasPrefix s "." = false.

Definition DomainSet (l : list string) : Prop :=
  NoDup l ∧ Forall wellFormedDomain l.

End Vocabulary.

(** A string of ASCII bytes without upper-case letters. *)
Definition lowerASCII (s : string) : Prop :=
  strings.isASCII s = true ∧ strings.hasUpper s = false.

(** The two bytes of a line ending. *)
Definition LF : ascii := "010"%char.
Definition CR : ascii := "013"%char.

(** A JSON array all of whose elements are strings. *)
Definition isArrayOfStrings (v : json.Value) : Prop :=
  ∃ l : list string, v = json.Array (json.Str <$> l).

(** The elements that decode into a [string] without error, and what
    they decode to. *)
Definition isStringOrNull (v : json.Value) : Prop :=
  match v with
  | json.Str _ | json.Null => True
  | _ => False
  end.

Definition stringOf (v : json.Value) : string :=
  match v with
  | json.Str s => s
  | _ => ""
  end.

Section Writes.
Context {J : json.Codec} {World : Type} {P : Platform World}.

(** The four writes of [writeOutputs], in their order. *)
Definition outputWrites (cfg : Config) (deny allow : list string)
  : list (M World (option error)) :=
  [ writeText (TextDenyOut cfg) deny;
    writeJSON (JSONDenyOut cfg) deny;
    writeText (TextAllowOut cfg) allow;
    writeJSON (JSONAllowOut cfg) allow ].

(** Writes done one after the other, up to and including the first
    that fails. *)
Fixpoint untilFailure (writes : list (M World (option error)))
  : M World (option error) :=
  match writes with
  | [] => ret None
  | wr :: rest =>
      bind wr (fun err =>
                 match err with
                 | Some err => ret (Some err)
                 | None => untilFailure rest
                 end)
  end.

(** The world after [writes], when each of them succeeds. *)
Fixpoint succeed (writes : list (M World (option error))) (w : World)
  : option World :=
  match writes with
  | [] => Some w
  | wr :: rest =>
      match wr w with
      | (w', Ret None) => succeed rest w'
      | _ => None
      end
  end.

(** A write returns: it does not panic. *)
Definition returns (wr : M World (option error)) : Prop :=
  ∀ w, ∃ w' err, wr w = (w', Ret err).

(** [readFile w path] is what the file at [path] holds in the world
    [w]: making a directory leaves every file as it is, and a write that
    succeeds gives the file written its new content and leaves every
    other file as it is. *)
Definition readsFiles (readFile : World → string → option string) : Prop :=
  (∀ dir w w', os_MkdirAll dir w = (w', None) →
               ∀ p, readFile w' p = readFile w p)
  ∧ (∀ path content w w', os_WriteFile path content w = (w', None) →
       readFile w' path = Some content
       ∧ ∀ p, p ≠ path → readFile w' p = readFile w p).

(** The paths of the four artifacts. *)
Definition outputPaths (cfg : Config) : list string :=
  [TextDenyOut cfg; JSONDenyOut cfg; TextAllowOut cfg; JSONAllowOut cfg].

(** The decoder reads back what the encoder writes for [arr]. *)
Definition readsBack (arr : list string) : Prop :=
  ∀ b, json.MarshalIndent arr = Ok b → json.Unmarshal b = Ok arr.

End Writes.

(** ** Vocabulary of the further properties *)

(** What the first loop of [TrimSpace] stops at. *)
Definition startsKept (s : string) : Prop :=
  match s with
  | EmptyString => True
  | String c _ => strings.isASCIIByte c = true ∧ strings.asciiSpace c = false
  end.

(** The content of a file whose lines each end in [ending]. *)
Definition unlines (ending : string) (lines : list string) : string :=
  foldr (fun line content => line +:+ ending +:+ content) "" lines.

Section FetchVocabulary.
Context {World : Type} {P : Platform World}.

(** One round of [fetch] that fails and whose wait runs to its end: it
    takes the world from [w] to [w'] and leaves [lastErr]. *)
Definition failedRound (url : string) (i : Z) (w w' : World)
  (lastErr : option error) : Prop :=
  ∃ w1 resp err,
    client_Do url w = (w1, (resp, err))
    ∧ judge resp err = inr lastErr
    ∧ select_After_Done ((i + 1) * 500) w1 = (w', None).

(** [n] such rounds in a row, the first with loop counter [i]. *)
Fixpoint failedRounds (url : string) (n : nat) (i : Z) (w w' : World)
  (lastErr0 lastErr : option error) : Prop :=
  match n with
  | O => w' = w ∧ lastErr = lastErr0
  | S n' =>
      ∃ w1 e1, failedRound url i w w1 e1
               ∧ failedRounds url n' (i + 1) w1 w' e1 lastErr
  end.

End FetchVocabulary.

(** The diagnostic of [obtainAllDomains] for the messages [errs]. *)
Definition diagnostic (errs : list string) : option error :=
  match errs with
  | [] => None
  | _ => Some (errorString (strings.Join errs "; "))
  end.

(** The messages that a diagnostic stands for, put after each other. *)
Definition joinDiagnostics (e1 e2 : option error) : option error :=
  match e1, e2 with
  | None, e | e, None => e
  | Some e1, Some e2 => Some (errorString (Error e1 +:+ "; " +:+ Error e2))
  end.

Section RunVocabulary.
Context {U : strings.Unicode} {World : Type} {P : Platform World}.

(** A line of a source declaration that is not passed over and of which
    [http.NewRequestWithContext] makes no request. *)
Definition rejected (u : string) : Prop :=
  skipURL u = false ∧ http_NewRequest_ok u = false.

(** The lines of the four source declarations, in the order in which
    [Run] goes through them. *)
Definition declaredURLs (cfg : Config) : list string :=
  TextDeny cfg ++ JSONDeny cfg ++ TextAllow cfg ++ JSONAllow cfg.

(** A way of fetching that panics on the URLs of which no request is
    made, and on no other. *)
Definition panicsOnRejected (get : string → M World (result (list string)))
  : Prop :=
  ∀ u w,
    (http_NewRequest_ok u = false → get u w = (w, Panic))
    ∧ (http_NewRequest_ok u = true → ∃ w' r, get u w = (w', Ret r)).

End RunVocabulary.

(** * Properties *)

(** ** Strings *)

Lemma compare_refl (s : string) : String.compare s s = Eq.
Proof.
  induction s as [|c s IH]; simpl; [done|].
  unfold Ascii.compare. by rewrite N.compare_refl.
Qed.

Lemma lt_irrefl (s : string) : ¬ strings.lt s s.
Proof. unfold strings.lt. by rewrite compare_refl. Qed.

Lemma le_lt_or_eq (s t : string) : String.le s t → strings.lt s t ∨ s = t.
Proof.
  unfold String.le, String.leb, strings.lt.
  destruct (String.compare s t) eqn:E; intros Hle.
  - right. by apply String.compare_eq_iff.
  - by left.
  - done.
Qed.

Lemma lt_le (s t : string) : strings.lt s t → String.le s t.
Proof. unfold String.le, String.leb, strings.lt. by intros ->. Qed.

Lemma lt_trans (s t u : string) :
  strings.lt s t → strings.lt t u → strings.lt s u.
Proof.
  intros Hst Htu.
  assert (Hsu : String.le s u)
    by (etrans; [apply lt_le, Hst | apply lt_le, Htu]).
  destruct (le_lt_or_eq _ _ Hsu) as [ | -> ]; [done|].
  assert (t = u) as ->
    by (apply (anti_symm String.le); auto using lt_le).
  by apply lt_irrefl in Htu.
Qed.

(** A list in increasing order without repetition is in strictly
    increasing order. *)
Lemma Sorted_le_NoDup_lt (l : list string) :
  Sorted String.le l → NoDup l → StronglySorted strings.lt l.
Proof.
  intros Hs%(Sorted_StronglySorted _) Hnd.
  induction Hs as [|x l Hs IH Hall]; [constructor|].
  apply NoDup_cons in Hnd as [Hx Hnd].
  constructor; [by apply IH|].
  rewrite Forall_forall in Hall |- *. intros y Hy.
  destruct (le_lt_or_eq x y) as [ | -> ]; [by apply Hall|done|done].
Qed.

Lemma StronglySorted_lt_NoDup (l : list string) :
  StronglySorted strings.lt l → NoDup l.
Proof.
  induction 1 as [|x l Hs IH Hall]; constructor; [|done].
  intros Hx. rewrite Forall_forall in Hall.
  by apply (lt_irrefl x), Hall.
Qed.

Lemma StronglySorted_lt_Sorted_le (l : list string) :
  StronglySorted strings.lt l → Sorted String.le l.
Proof.
  induction 1 as [|x l Hs IH Hall]; constructor; [done|].
  destruct Hall as [|y l Hxy _]; constructor. by apply lt_le.
Qed.

Lemma StronglySorted_lt_sublist (k l : list string) :
  k `sublist_of` l → StronglySorted strings.lt l → StronglySorted strings.lt k.
Proof.
  induction 1 as [|x k l Hsub IH|x k l Hsub IH]; intros Hs.
  - constructor.
  - apply StronglySorted_inv in Hs as [Hs Hall].
    constructor; [by apply IH|].
    rewrite Forall_forall in Hall |- *. intros y Hy.
    by eapply Hall, elem_of_sublist.
  - apply StronglySorted_inv in Hs as [Hs _]. by apply IH.
Qed.

(** ** Prefixes, pieces and joins *)

Lemma app_String (c : ascii) (s t : string) :
  String c s +:+ t = String c (s +:+ t).
Proof. done. Qed.

Lemma HasPrefix_inv (s prefix : string) :
  strings.HasPrefix s prefix = true →
  s = prefix +:+ strings.drop (String.length prefix) s.
Proof.
  revert s. induction prefix as [|p prefix IH]; intros s; [done|].
  destruct s as [|c s]; [done|]. cbn.
  intros [Hc Hs]%andb_prop. apply Ascii.eqb_eq in Hc as ->.
  rewrite app_String. f_equal. by apply IH.
Qed.

Lemma HasPrefix_app (prefix t q : string) :
  strings.HasPrefix (prefix +:+ t) (prefix +:+ q) = strings.HasPrefix t q.
Proof.
  induction prefix as [|p prefix IH]; [done|].
  rewrite !app_String. cbn. by rewrite Ascii.eqb_refl, IH.
Qed.

Lemma app_empty_r (s : string) : s +:+ "" = s.
Proof. induction s as [|c s IH]; [done|]. by rewrite app_String, IH. Qed.

Lemma app_assoc_string (s t u : string) : (s +:+ t) +:+ u = s +:+ t +:+ u.
Proof. induction s as [|c s IH]; [done|]. by rewrite !app_String, IH. Qed.

Lemma Split_cons (s : string) (sep : ascii) :
  ∃ piece pieces, strings.Split s sep = piece :: pieces.
Proof.
  destruct s as [|c s]; cbn; [by eexists _, _|].
  destruct (Ascii.eqb c sep); [by eexists _, _|].
  destruct (strings.Split s sep); by eexists _, _.
Qed.

Lemma Join_cons_cons (e e' : string) (rest : list string) (sep : string) :
  strings.Join (e :: e' :: rest) sep = e +:+ sep +:+ strings.Join (e' :: rest) sep.
Proof. done. Qed.

Lemma Join_singleton (e sep : string) : strings.Join [e] sep = e.
Proof. done. Qed.

Lemma Join_Split (s : string) (sep : ascii) :
  strings.Join (strings.Split s sep) (String sep "") = s.
Proof.
  induction s as [|c s IH]; [done|]. cbn [strings.Split].
  destruct (Split_cons s sep) as (p & ps & Hs). rewrite Hs in IH |- *.
  destruct (Ascii.eqb c sep) eqn:Hc.
  - apply Ascii.eqb_eq in Hc as ->. by rewrite Join_cons_cons, IH.
  - destruct ps as [|p' ps].
    + rewrite Join_singleton in IH |- *. by rewrite IH.
    + rewrite Join_cons_cons in IH |- *. by rewrite app_String, IH.
Qed.

Lemma length_Split (s : string) (sep : ascii) :
  length (strings.Split s sep) = S (strings.Count s sep).
Proof.
  induction s as [|c s IH]; [done|]. cbn [strings.Split strings.Count].
  destruct (Split_cons s sep) as (p & ps & Hs). rewrite Hs in IH |- *.
  destruct (Ascii.eqb c sep); cbn [length] in *; lia.
Qed.

Lemma Split_pieces (s : string) (sep : ascii) :
  Forall (fun piece => strings.Count piece sep = 0) (strings.Split s sep).
Proof.
  induction s as [|c s IH]; [by repeat constructor|]. cbn [strings.Split].
  destruct (Split_cons s sep) as (p & ps & Hs). rewrite Hs in IH |- *.
  apply Forall_cons in IH as [Hp Hps].
  destruct (Ascii.eqb c sep) eqn:Hc; repeat constructor; try done.
  cbn [strings.Count]. by rewrite Hc.
Qed.

Lemma Split_line (line rest : string) (sep : ascii) :
  strings.Count line sep = 0 →
  strings.Split (line +:+ String sep rest) sep = line :: strings.Split rest sep.
Proof.
  induction line as [|c line IH]; intros Hline.
  - change ("" +:+ String sep rest) with (String sep rest).
    cbn [strings.Split]. by rewrite Ascii.eqb_refl.
  - rewrite app_String. cbn [strings.Split strings.Count] in Hline |- *.
    destruct (Ascii.eqb c sep); [done|]. by rewrite IH.
Qed.

Lemma Split_no_sep (s : string) (sep : ascii) :
  strings.Count s sep = 0 → strings.Split s sep = [s].
Proof.
  induction s as [|c s IH]; [done|]. cbn [strings.Split strings.Count].
  destruct (Ascii.eqb c sep); [done|]. intros Hs. by rewrite IH.
Qed.

(** The lines of a text artifact are the entries written, as long as no
    entry holds a newline. *)
Lemma Split_Join (l : list string) (sep : ascii) :
  l ≠ [] → Forall (fun e => strings.Count e sep = 0) l →
  strings.Split (strings.Join l (String sep "")) sep = l.
Proof.
  intros Hne Hall. induction Hall as [|e l He Hall IH]; [done|].
  destruct l as [|e' l].
  - rewrite Join_singleton. by apply Split_no_sep.
  - rewrite Join_cons_cons.
    change (String sep "" +:+ ?t) with (String sep t).
    rewrite Split_line by done. by rewrite IH.
Qed.

(** ** [sort.Strings] *)

Lemma sort_Strings_Permutation (x y : list string) :
  x ≡ₚ y → sort.Strings x = sort.Strings y.
Proof.
  intros Hxy. unfold sort.Strings.
  apply (Sorted_unique String.le).
  - apply Sorted_merge_sort, _.
  - apply Sorted_merge_sort, _.
  - by rewrite !merge_sort_Permutation.
Qed.

(** ** Loops that append *)

Lemma foldl_snoc_filter {A} (P : A → Prop) `{∀ x, Decision (P x)}
  (l : list A) (out : list A) :
  foldl (fun out x => if bool_decide (P x) then out else out ++ [x]) out l
  = out ++ filter (fun x => ¬ P x) l.
Proof.
  revert out. induction l as [|x l IH]; intros out; simpl.
  - by rewrite app_nil_r.
  - rewrite IH, filter_cons. case_bool_decide.
    + by rewrite decide_False by tauto.
    + by rewrite decide_True, <-app_assoc by done.
Qed.

Lemma foldl_snoc_map {A B} (f : A → B) (l : list A) (out : list B) :
  foldl (fun out x => out ++ [f x]) out l = out ++ (f <$> l).
Proof.
  revert out. induction l as [|x l IH]; intros out; simpl.
  - by rewrite app_nil_r.
  - by rewrite IH, <-app_assoc.
Qed.

Lemma foldl_add_set (l : list string) (X : gset string) :
  foldl (fun sb s => {[ s ]} ∪ sb) X l = list_to_set l ∪ X.
Proof.
  revert X. induction l as [|x l IH]; intros X; simpl.
  - by rewrite (left_id_L _ _).
  - rewrite IH, (assoc_L _). f_equal. apply (comm_L _).
Qed.

(** ** The normalizer and the reconciler *)

Section ListProperties.
Context {U : strings.Unicode} {T : publicsuffix.Table}.

Lemma normalizeAndFilter_filter (in_ : list string) :
  normalizeAndFilter in_
  = filter (fun s => ¬ (s = "" ∨ strings.HasPrefix s "#"))
           ((fun s => strings.TrimSpace (strings.ToLower s)) <$> in_).
Proof.
  unfold normalizeAndFilter.
  enough (Hout : ∀ out,
    foldl (fun out s =>
             let s := strings.TrimSpace (strings.ToLower s) in
             if bool_decide (s = "") || strings.HasPrefix s "#" then out
             else out ++ [s]) out in_
    = out ++ filter (fun s => ¬ (s = "" ∨ strings.HasPrefix s "#"))
                    ((fun s => strings.TrimSpace (strings.ToLower s)) <$> in_))
    by apply (Hout []).
  induction in_ as [|x l IH]; intros out.
  - by rewrite app_nil_r.
  - rewrite fmap_cons, filter_cons. cbn [foldl]. rewrite IH.
    set (s := strings.TrimSpace (strings.ToLower x)).
    destruct (bool_decide (s = "")) eqn:E1.
    + apply bool_decide_eq_true in E1. by rewrite decide_False by tauto.
    + apply bool_decide_eq_false in E1. rewrite orb_false_l.
      destruct (strings.HasPrefix s "#") eqn:E2.
      * rewrite decide_False; [done|]. intros Hn. apply Hn. by right.
      * rewrite decide_True, <-app_assoc; [done|].
        intros [?|?]; done.
Qed.

Lemma cleanDomains_fmap (in_ : list string) :
  cleanDomains in_
  = (fun s => strings.TrimPrefix (strings.TrimPrefix s "*.") ".") <$> in_.
Proof. unfold cleanDomains. by rewrite foldl_snoc_map. Qed.

Lemma difference_filter (a b : list string) :
  difference a b = filter (fun s => s ∉ b) a.
Proof.
  unfold difference. rewrite foldl_snoc_filter, foldl_add_set. simpl.
  apply list_filter_iff. intros s.
  rewrite elem_of_union, elem_of_list_to_set, elem_of_empty. tauto.
Qed.

Lemma elem_of_difference_list (a b : list string) (s : string) :
  s ∈ difference a b ↔ s ∈ a ∧ s ∉ b.
Proof. rewrite difference_filter, list_elem_of_filter. tauto. Qed.

Lemma difference_sublist (a b : list string) : difference a b `sublist_of` a.
Proof. rewrite difference_filter. apply sublist_filter. Qed.

(** The set that the first loop of [uniqueSorted] builds. *)
Lemma uniqueSorted_set (in_ : list string) (X : gset string) :
  foldl (fun set s => if bool_decide (s ≠ "") then {[ s ]} ∪ set else set) X in_
  = list_to_set (filter (fun s => s ≠ "") in_) ∪ X.
Proof.
  revert X. induction in_ as [|x l IH]; intros X; simpl.
  - by rewrite (left_id_L _ _).
  - rewrite IH, filter_cons. case_bool_decide.
    + rewrite decide_True by done. simpl.
      rewrite (assoc_L (∪)). f_equal. apply (comm_L (∪)).
    + rewrite decide_False; [done|]. by intros ?.
Qed.

Lemma uniqueSorted_sort (in_ : list string) :
  uniqueSorted in_
  = sort.Strings
      (elements (list_to_set (filter (fun s => s ≠ "") in_) : gset string)).
Proof.
  unfold uniqueSorted.
  rewrite uniqueSorted_set, (right_id_L ∅ (∪)).
  by rewrite (foldl_snoc_map id), list_fmap_id.
Qed.

Lemma uniqueSorted_Permutation (in_ : list string) :
  uniqueSorted in_
  ≡ₚ elements (list_to_set (filter (fun s => s ≠ "") in_) : gset string).
Proof. rewrite uniqueSorted_sort. apply merge_sort_Permutation. Qed.

Lemma elem_of_uniqueSorted (in_ : list string) (s : string) :
  s ∈ uniqueSorted in_ ↔ s ∈ in_ ∧ s ≠ "".
Proof.
  rewrite uniqueSorted_Permutation, elem_of_elements, elem_of_list_to_set.
  rewrite list_elem_of_filter. tauto.
Qed.

Lemma uniqueSorted_NoDup (in_ : list string) : NoDup (uniqueSorted in_).
Proof. rewrite uniqueSorted_Permutation. apply NoDup_elements. Qed.

Lemma uniqueSorted_ascending (in_ : list string) :
  StronglySorted strings.lt (uniqueSorted in_).
Proof.
  apply Sorted_le_NoDup_lt; [|apply uniqueSorted_NoDup].
  rewrite uniqueSorted_sort. apply Sorted_merge_sort, _.
Qed.

(** Two inputs with the same entries give the same list, whatever the
    order and the multiplicity of the entries. *)
Lemma uniqueSorted_ext (in_ in' : list string) :
  (∀ s, s ∈ in_ ↔ s ∈ in') → uniqueSorted in_ = uniqueSorted in'.
Proof.
  intros Heq. rewrite !uniqueSorted_sort. do 2 f_equal.
  apply set_eq. intros s.
  rewrite !elem_of_list_to_set, !list_elem_of_filter. by rewrite Heq.
Qed.

(** The order in which the keys of the Go map are visited is
    immaterial. *)
Lemma uniqueSorted_any_iteration_order (in_ keys : list string) :
  keys ≡ₚ elements (list_to_set (filter (fun s => s ≠ "") in_) : gset string) →
  sort.Strings keys = uniqueSorted in_.
Proof. intros Hk. rewrite uniqueSorted_sort. by apply sort_Strings_Permutation. Qed.

Lemma removeSecureDomainsByETLD1_filter (deny secure : list string) :
  removeSecureDomainsByETLD1 deny secure
  = filter (fun d => etld1Key d ∉ etld1Key <$> secure) deny.
Proof.
  unfold removeSecureDomainsByETLD1.
  assert (Hsec : ∀ X : gset string,
    foldl (fun sec s => match effectiveTLDPlusOne s with
                        | Some et => {[ et ]} ∪ sec
                        | None => {[ s ]} ∪ sec
                        end) X secure
    = list_to_set (etld1Key <$> secure) ∪ X).
  { induction secure as [|s l IH]; intros X; simpl.
    - by rewrite (left_id_L _ _).
    - rewrite IH.
      replace (match effectiveTLDPlusOne s with
               | Some et => {[ et ]} ∪ X
               | None => {[ s ]} ∪ X
               end) with ({[ etld1Key s ]} ∪ X)
        by (unfold etld1Key; by destruct (effectiveTLDPlusOne s)).
      rewrite (assoc_L (∪)). f_equal. apply (comm_L (∪)). }
  rewrite Hsec, (right_id_L ∅ (∪)).
  etrans;
    [apply (foldl_snoc_filter
              (fun d => etld1Key d
                        ∈ (list_to_set (etld1Key <$> secure) : gset string)))|].
  simpl. apply list_filter_iff. intros d. by rewrite elem_of_list_to_set.
Qed.

End ListProperties.

(** ** The claims about the lists *)

Section ListClaims.
Context {U : strings.Unicode} {T : publicsuffix.Table}.

Lemma effectiveTLDPlusOne_empty (s : string) :
  strings.TrimSuffix s "." = "" → effectiveTLDPlusOne s = None.
Proof. intros Hs. unfold effectiveTLDPlusOne. by rewrite Hs. Qed.

(** C1. [removeSecureDomainsByETLD1] drops exactly the deny entries whose
    key is the key of some secure entry and keeps the others in their
    order.  The key of an entry is its eTLD+1 when the computation
    succeeds and the entry itself when it fails, as it does for an entry
    that is empty once a trailing dot is trimmed.  With a suffix table
    for which [good.net] is the eTLD+1 of both [good.net] and
    [mail.good.net], the deny entry [mail.good.net] is dropped as soon
    as [good.net] is secure. *)
Theorem removeSecureDomainsByETLD1_by_key (deny secure : list string) :
  removeSecureDomainsByETLD1 deny secure
  = filter (fun d => etld1Key d ∉ etld1Key <$> secure) deny
  ∧ (∀ d, d ∈ removeSecureDomainsByETLD1 deny secure
          ↔ d ∈ deny ∧ ¬ ∃ s, s ∈ secure ∧ etld1Key d = etld1Key s)
  ∧ removeSecureDomainsByETLD1 deny secure `sublist_of` deny
  ∧ (∀ s et, effectiveTLDPlusOne s = Some et → etld1Key s = et)
  ∧ (∀ s, effectiveTLDPlusOne s = None → etld1Key s = s)
  ∧ (∀ s, strings.TrimSuffix s "." = "" → etld1Key s = s)
  ∧ (publicsuffix.EffectiveTLDPlusOne "mail.good.net" = Some "good.net" →
     publicsuffix.EffectiveTLDPlusOne "good.net" = Some "good.net" →
     "good.net" ∈ secure →
     "mail.good.net" ∉ removeSecureDomainsByETLD1 deny secure).
Proof.
  rewrite removeSecureDomainsByETLD1_filter.
  split_and!.
  - done.
  - intros d. rewrite list_elem_of_filter, list_elem_of_fmap.
    split.
    + intros [Hk Hd]. split; [done|].
      intros (s & Hs & Heq). apply Hk. by exists s.
    + intros [Hd Hk]. split; [|done].
      intros (s & Heq & Hs). apply Hk. by exists s.
  - apply sublist_filter.
  - intros s et Hs. unfold etld1Key. by rewrite Hs.
  - intros s Hs. unfold etld1Key. by rewrite Hs.
  - intros s Hs. unfold etld1Key. by rewrite effectiveTLDPlusOne_empty.
  - intros Hmail Hgood Hsec. rewrite list_elem_of_filter.
    intros [Hk _]. apply Hk. apply list_elem_of_fmap.
    exists "good.net". split; [|done].
    unfold etld1Key, effectiveTLDPlusOne. cbn. by rewrite Hmail, Hgood.
Qed.

(** C2. No entry of the published deny list occurs, as the same string,
    in the declared allow list (normalized and stripped, before the
    secure entries are merged into it): the deny list is
    [difference (uniqueSorted deny) (uniqueSorted allow)]. *)
Theorem final_deny_avoids_declared_allow (deny allow secure : list string) :
  (reconcile deny allow secure).1
  = difference
      (uniqueSorted
         (removeSecureDomainsByETLD1
            (cleanDomains (normalizeAndFilter deny))
            (cleanDomains (normalizeAndFilter secure))))
      (uniqueSorted (cleanDomains (normalizeAndFilter allow)))
  ∧ Forall (fun d => d ∉ cleanDomains (normalizeAndFilter allow))
           (reconcile deny allow secure).1
  ∧ Forall (fun a => a ∉ (reconcile deny allow secure).1)
           (cleanDomains (normalizeAndFilter allow)).
Proof.
  assert (Hd : ∀ d, d ∈ (reconcile deny allow secure).1 →
                    d ∉ cleanDomains (normalizeAndFilter allow)).
  { unfold reconcile. cbn [fst]. intros d.
    rewrite elem_of_difference_list, !elem_of_uniqueSorted.
    intros [[_ Hne] Hnot] Hin. by apply Hnot. }
  split_and!; [done| |]; apply Forall_forall.
  - done.
  - intros a Ha Hin. by apply (Hd a).
Qed.

(** C3. The published allow list is [uniqueSorted] of the declared allow
    entries followed by the secure entries: it holds exactly the
    non-empty entries of either list, once each, in increasing order,
    and so every non-empty secure entry. *)
Theorem final_allow_is_union (deny allow secure : list string) :
  (reconcile deny allow secure).2
  = uniqueSorted (cleanDomains (normalizeAndFilter allow)
                  ++ cleanDomains (normalizeAndFilter secure))
  ∧ (∀ s, s ∈ (reconcile deny allow secure).2
          ↔ (s ∈ cleanDomains (normalizeAndFilter allow)
             ∨ s ∈ cleanDomains (normalizeAndFilter secure)) ∧ s ≠ "")
  ∧ NoDup (reconcile deny allow secure).2
  ∧ StronglySorted strings.lt (reconcile deny allow secure).2
  ∧ Forall (fun s => s ≠ "" → s ∈ (reconcile deny allow secure).2)
           (cleanDomains (normalizeAndFilter secure)).
Proof.
  unfold reconcile. cbn [snd].
  split_and!.
  - done.
  - intros s. by rewrite elem_of_uniqueSorted, elem_of_app.
  - apply uniqueSorted_NoDup.
  - apply uniqueSorted_ascending.
  - apply Forall_forall. intros s Hs Hne.
    rewrite elem_of_uniqueSorted, elem_of_app. auto.
Qed.

(** C10. [difference a b] is a subsequence of [a]: it keeps the entries
    of [a] that are not in [b], in their order, and adds none.  Applied
    to the sorted [uniqueSorted deny] it leaves a list that is still in
    strictly increasing order, hence without repetition, so the
    published deny list needs no further sorting. *)
Theorem difference_is_subsequence (a b : list string) :
  difference a b `sublist_of` a
  ∧ (∀ s, s ∈ difference a b ↔ s ∈ a ∧ s ∉ b)
  ∧ (∀ deny, StronglySorted strings.lt (difference (uniqueSorted deny) b)
             ∧ NoDup (difference (uniqueSorted deny) b))
  ∧ (∀ deny allow secure,
       StronglySorted strings.lt (reconcile deny allow secure).1
       ∧ NoDup (reconcile deny allow secure).1
       ∧ sort.Strings (reconcile deny allow secure).1
         = (reconcile deny allow secure).1).
Proof.
  assert (Hs : ∀ deny c,
    StronglySorted strings.lt (difference (uniqueSorted deny) c)).
  { intros deny c. eapply StronglySorted_lt_sublist;
      [apply difference_sublist|apply uniqueSorted_ascending]. }
  split_and!.
  - apply difference_sublist.
  - apply elem_of_difference_list.
  - intros deny. split; [apply Hs|apply StronglySorted_lt_NoDup, Hs].
  - intros deny allow secure. unfold reconcile. cbn [fst].
    split_and!; [apply Hs|apply StronglySorted_lt_NoDup, Hs|].
    apply (Sorted_unique String.le).
    + apply Sorted_merge_sort, _.
    + apply StronglySorted_lt_Sorted_le, Hs.
    + apply merge_sort_Permutation.
Qed.

(** The published deny list has no entry whose key is the key of a
    secure entry, and it shares no entry with the published allow
    list. *)
Theorem final_deny_disjoint_from_final_allow (deny allow secure : list string) :
  Forall (fun d => etld1Key d
                   ∉ etld1Key <$> cleanDomains (normalizeAndFilter secure))
         (reconcile deny allow secure).1
  ∧ Forall (fun d => d ∉ (reconcile deny allow secure).2)
           (reconcile deny allow secure).1.
Proof.
  assert (Hkey : ∀ d, d ∈ (reconcile deny allow secure).1 →
    etld1Key d ∉ etld1Key <$> cleanDomains (normalizeAndFilter secure)).
  { unfold reconcile. cbn [fst]. intros d.
    rewrite elem_of_difference_list, elem_of_uniqueSorted.
    rewrite removeSecureDomainsByETLD1_filter, list_elem_of_filter. tauto. }
  split; apply Forall_forall; [done|].
  intros d Hd. pose proof (Hkey d Hd) as Hk. revert Hd.
  unfold reconcile. cbn [fst snd].
  rewrite elem_of_difference_list, !elem_of_uniqueSorted, elem_of_app.
  intros [[_ Hne] Hnot] [[Ha|Hs] _].
  - by apply Hnot.
  - apply Hk, list_elem_of_fmap. by exists d.
Qed.

End ListClaims.

(** The first scenario of the specification, with the rules of
    [Sim.table]. *)
Example reconcile_scenario :
  reconcile (U:=Sim.asciiOnly) (T:=Sim.table)
    ["Example.COM"; "*.spam.io"; "#comment"; ""; "trusted.org"]
    ["trusted.org"] ["good.net"]
  = (["example.com"; "spam.io"], ["good.net"; "trusted.org"]).
Proof. by vm_compute. Qed.

(** What [Sim.table] answers: a single label and an empty label have no
    eTLD+1. *)
Example table_examples :
  Sim.table "mail.example.co.uk" = Some "example.co.uk"
  ∧ Sim.table "localhost" = None
  ∧ Sim.table "co.uk" = None
  ∧ Sim.table "a..b" = None.
Proof. by vm_compute. Qed.

(** ** The prefix-strip pass *)

Lemma TrimPrefix_twice_once (s : string) :
  strings.HasPrefix s "*.." = false →
  strings.TrimPrefix (strings.TrimPrefix s "*.") "." = stripWildcardPrefix s.
Proof.
  intros Hs. unfold stripWildcardPrefix, strings.TrimPrefix at 2.
  destruct (strings.HasPrefix s "*.") eqn:E.
  - apply HasPrefix_inv in E. cbn [String.length] in E |- *.
    rewrite E in Hs. change "*.." with ("*." +:+ ".") in Hs.
    rewrite HasPrefix_app in Hs.
    unfold strings.TrimPrefix. by rewrite Hs.
  - done.
Qed.

Lemma cleanDomains_singleton (s : string) :
  cleanDomains [s]
  = [strings.TrimPrefix (strings.TrimPrefix s "*.") "."].
Proof. done. Qed.

(** The claim C5 as it is stated fails: of an entry that begins with
    [*..] the pass removes the [*.] and then the [.] that follows, where
    a single removal would leave [.foo]. *)
Lemma cleanDomains_strips_twice :
  cleanDomains ["*..foo"] = ["foo"]
  ∧ stripWildcardPrefix "*..foo" = ".foo"
  ∧ cleanDomains ["*..foo"] ≠ stripWildcardPrefix <$> ["*..foo"].
Proof. by split_and!. Qed.

(** C5, amended.  The pass makes two removal attempts on every entry,
    one after the other: it removes one leading [*.] if there is one,
    and then one leading [.] from what is left if there is one.  So an
    entry that begins with [*..] loses both the [*.] and the [.], an
    entry that begins with [..] loses its first [.] only, and no entry
    loses more than one [*.] and one [.].  On the entries that do not
    begin with [*..] this is the single removal of the specification. *)
Theorem cleanDomains_two_attempts (in_ : list string) :
  cleanDomains in_
  = (fun s => strings.TrimPrefix (strings.TrimPrefix s "*.") ".") <$> in_
  ∧ length (cleanDomains in_) = length in_
  ∧ (∀ t, cleanDomains ["*.." +:+ t] = [t])
  ∧ (∀ t, strings.HasPrefix t "." = false → cleanDomains ["*." +:+ t] = [t])
  ∧ (∀ t, cleanDomains ["." +:+ t] = [t])
  ∧ (∀ t, strings.HasPrefix t "*." = false →
          strings.HasPrefix t "." = false → cleanDomains [t] = [t])
  ∧ (Forall (fun s => strings.HasPrefix s "*.." = false) in_ →
     cleanDomains in_ = stripWildcardPrefix <$> in_).
Proof.
  split_and!.
  - apply cleanDomains_fmap.
  - by rewrite cleanDomains_fmap, length_fmap.
  - intros t. reflexivity.
  - intros t Ht. rewrite cleanDomains_singleton.
    change (strings.TrimPrefix ("*." +:+ t) "*.") with t.
    unfold strings.TrimPrefix. by rewrite Ht.
  - intros t. reflexivity.
  - intros t H1 H2. rewrite cleanDomains_singleton.
    unfold strings.TrimPrefix. by rewrite H1, H2.
  - intros Hall. rewrite cleanDomains_fmap.
    apply Forall_fmap_ext, (Forall_impl _ _ _ Hall).
    intros s. apply TrimPrefix_twice_once.
Qed.

(** ** Lower case, for ASCII input *)

Lemma lowerByte_lower (c : ascii) :
  strings.isASCIIByte c = true →
  strings.isASCIIByte (strings.lowerByte c) = true
  ∧ strings.isUpperByte (strings.lowerByte c) = false.
Proof. destruct c as [[] [] [] [] [] [] [] []]; by vm_compute. Qed.

Lemma mapBytes_lowerASCII (s : string) :
  strings.isASCII s = true → lowerASCII (strings.mapBytes strings.lowerByte s).
Proof.
  unfold lowerASCII. induction s as [|c s IH]; [done|]. cbn.
  intros [Hc Hs]%andb_prop. destruct (lowerByte_lower c Hc) as [-> ->].
  by apply IH.
Qed.

Lemma lowerASCII_String (c : ascii) (s : string) :
  lowerASCII (String c s)
  ↔ (strings.isASCIIByte c = true ∧ strings.isUpperByte c = false)
    ∧ lowerASCII s.
Proof.
  unfold lowerASCII. cbn. rewrite andb_true_iff, orb_false_iff. tauto.
Qed.

Lemma lowerASCII_drop (n : nat) (s : string) :
  lowerASCII s → lowerASCII (strings.drop n s).
Proof.
  revert s. induction n as [|n IH]; intros [|c s]; try done.
  rewrite lowerASCII_String. intros [_ Hs]. by apply IH.
Qed.

Lemma lowerASCII_TrimPrefix (s prefix : string) :
  lowerASCII s → lowerASCII (strings.TrimPrefix s prefix).
Proof.
  unfold strings.TrimPrefix. destruct (strings.HasPrefix s prefix); [|done].
  apply lowerASCII_drop.
Qed.

Lemma scanLeft_lowerASCII (s : string) :
  lowerASCII s → ∃ rest, strings.scanLeft s = strings.Kept rest ∧ lowerASCII rest.
Proof.
  induction s as [|c s IH]; [by exists ""|].
  intros Hs. pose proof Hs as [[Hc _] Hs']%lowerASCII_String.
  cbn. rewrite Hc. destruct (strings.asciiSpace c); [by apply IH|].
  by exists (String c s).
Qed.

Lemma scanRight_lowerASCII (s : string) :
  lowerASCII s → ∃ rest, strings.scanRight s = strings.Kept rest ∧ lowerASCII rest.
Proof.
  induction s as [|c s IH]; [by exists ""|].
  intros [[Hc Hu] Hs]%lowerASCII_String.
  destruct (IH Hs) as (rest & Hr & Hrest). cbn. rewrite Hr, Hc.
  destruct rest as [|c' rest].
  - destruct (strings.asciiSpace c); [by exists ""|].
    exists (String c ""). split; [done|]. by apply lowerASCII_String.
  - exists (String c (String c' rest)). split; [done|].
    by apply lowerASCII_String.
Qed.

Section LowerCase.
Context {U : strings.Unicode} {T : publicsuffix.Table}.

Lemma ToLower_lowerASCII (s : string) :
  strings.isASCII s = true → lowerASCII (strings.ToLower s).
Proof.
  intros Hs. unfold strings.ToLower. rewrite Hs.
  destruct (strings.hasUpper s) eqn:Hu; [by apply mapBytes_lowerASCII|done].
Qed.

Lemma ToLower_fixed (s : string) : lowerASCII s → strings.ToLower s = s.
Proof. intros [Ha Hu]. unfold strings.ToLower. by rewrite Ha, Hu. Qed.

Lemma TrimSpace_lowerASCII (s : string) :
  lowerASCII s → lowerASCII (strings.TrimSpace s).
Proof.
  intros Hs. unfold strings.TrimSpace.
  destruct (scanLeft_lowerASCII s Hs) as (r & -> & Hr).
  by destruct (scanRight_lowerASCII r Hr) as (r' & -> & Hr').
Qed.

Lemma cleaned_lowerASCII (in_ : list string) :
  Forall (fun s => strings.isASCII s = true) in_ →
  Forall lowerASCII (cleanDomains (normalizeAndFilter in_)).
Proof.
  intros Hall. rewrite cleanDomains_fmap, normalizeAndFilter_filter.
  rewrite Forall_forall in Hall |- *. intros s.
  rewrite list_elem_of_fmap. intros (t & -> & Ht).
  apply list_elem_of_filter in Ht as [_ Ht].
  apply list_elem_of_fmap in Ht as (r & -> & Hr).
  by apply lowerASCII_TrimPrefix, lowerASCII_TrimPrefix,
    TrimSpace_lowerASCII, ToLower_lowerASCII, Hall.
Qed.

(** When the candidates hold ASCII bytes only, every published entry is
    its own lower-case form. *)
Lemma published_lists_lowercase (deny allow secure : list string) :
  Forall (fun s => strings.isASCII s = true) (deny ++ allow ++ secure) →
  Forall (fun s => strings.ToLower s = s) (reconcile deny allow secure).1
  ∧ Forall (fun s => strings.ToLower s = s) (reconcile deny allow secure).2.
Proof.
  rewrite !Forall_app. intros (Hd & Ha & Hs).
  apply cleaned_lowerASCII in Hd, Ha, Hs.
  rewrite Forall_forall in Hd, Ha, Hs.
  unfold reconcile. cbn [fst snd]. split; apply Forall_forall; intros s.
  - rewrite elem_of_difference_list, elem_of_uniqueSorted.
    intros [[Hin _] _]. apply ToLower_fixed, Hd.
    eapply elem_of_sublist; [done|].
    rewrite removeSecureDomainsByETLD1_filter. apply sublist_filter.
  - rewrite elem_of_uniqueSorted, elem_of_app.
    intros [[Hin|Hin] _]; apply ToLower_fixed; auto.
Qed.

End LowerCase.

(** ** The Domain Set invariant *)

Section Invariant.
Context {U : strings.Unicode} {T : publicsuffix.Table}.

(** What holds of the invariant: the published lists have no
    repetition and no empty entry (and, by [published_lists_lowercase],
    no upper-case letter when the candidates are ASCII). *)
Lemma published_lists_NoDup_nonempty (deny allow secure : list string) :
  NoDup (reconcile deny allow secure).1
  ∧ NoDup (reconcile deny allow secure).2
  ∧ Forall (fun s => s ≠ "") (reconcile deny allow secure).1
  ∧ Forall (fun s => s ≠ "") (reconcile deny allow secure).2.
Proof.
  unfold reconcile. cbn [fst snd]. split_and!.
  - eapply sublist_NoDup; [apply uniqueSorted_NoDup|apply difference_sublist].
  - apply uniqueSorted_NoDup.
  - apply Forall_forall. intros s.
    rewrite elem_of_difference_list, elem_of_uniqueSorted. tauto.
  - apply Forall_forall. intros s. rewrite elem_of_uniqueSorted. tauto.
Qed.

(** C4.  The claim does not hold of the code: a deny candidate that
    begins with two dots is published with a leading dot, and one that
    begins with [*.*.] is published with a leading [*.], because
    [cleanDomains] removes one prefix of each kind only. *)
Theorem published_deny_keeps_leading_dot :
  (reconcile ["..example.com"; "*.*.spam.io"] [] []).1
  = ["*.spam.io"; ".example.com"]
  ∧ ¬ DomainSet (reconcile ["..example.com"; "*.*.spam.io"] [] []).1.
Proof.
  assert (Heq : (reconcile ["..example.com"; "*.*.spam.io"] [] []).1
                = ["*.spam.io"; ".example.com"]) by (by vm_compute).
  split; [done|]. rewrite Heq. intros [_ Hwf].
  apply Forall_cons in Hwf as [(_ & _ & Hstar & _) _]. done.
Qed.

End Invariant.

(** ** [splitLines] and [strings.Split] *)

(** The loop of [splitLines] against [strings.Split]: [line] is put in
    front of the first piece of what is left to read. *)
Lemma splitLines_loop_Split (s line : string) (out : list string) :
  ∃ lines lst,
    strings.Split s LF = lines ++ [lst]
    ∧ splitLines_loop line s out
      = match lines with
        | [] => (out, line +:+ lst)
        | l :: lines' =>
            (out ++ strings.TrimSuffix (line +:+ l) (String CR "")
                 :: ((fun l => strings.TrimSuffix l (String CR "")) <$> lines'),
             lst)
        end.
Proof.
  revert line out. induction s as [|c s IH]; intros line out.
  - exists [], "". by rewrite app_empty_r.
  - cbn [strings.Split splitLines_loop]. fold LF.
    destruct (Ascii.eqb c LF) eqn:Hc.
    + destruct (IH "" (out ++ [strings.TrimSuffix line (String CR "")]))
        as (lines & lst & Hs & Hloop).
      exists ("" :: lines), lst. rewrite Hs. split; [done|].
      rewrite app_empty_r.
      change (if strings.HasSuffix line (String "013" "")
              then strings.take (String.length line - 1) line else line)
        with (strings.TrimSuffix line (String CR "")).
      rewrite Hloop. destruct lines as [|l lines']; [done|].
      by rewrite <-app_assoc.
    + destruct (IH (line +:+ String c "") out) as (lines & lst & Hs & Hloop).
      rewrite Hloop, Hs. destruct lines as [|l lines'].
      * exists [], (String c lst). by rewrite app_assoc_string.
      * exists (String c l :: lines'), lst. by rewrite app_assoc_string.
Qed.

(** [splitLines] takes the pieces of [strings.Split], removes one
    trailing carriage return from each, and leaves out the last piece
    when nothing remains of it. *)
Lemma splitLines_Split (s : string) :
  ∃ lines lst,
    strings.Split s LF = lines ++ [lst]
    ∧ splitLines s
      = ((fun l => strings.TrimSuffix l (String CR "")) <$> lines)
        ++ (if bool_decide (strings.TrimSuffix lst (String CR "") ≠ "")
            then [strings.TrimSuffix lst (String CR "")] else []).
Proof.
  destruct (splitLines_loop_Split s "" []) as (lines & lst & Hs & Hloop).
  exists lines, lst. split; [done|].
  unfold splitLines. rewrite Hloop.
  change (String "013" "") with (String CR "").
  destruct lines as [|l lines']; cbn [fmap list_fmap app].
  - change ("" +:+ lst) with lst.
    change (if strings.HasSuffix lst (String CR "")
            then strings.take (String.length lst - 1) lst else lst)
      with (strings.TrimSuffix lst (String CR "")).
    reflexivity.
  - change ("" +:+ l) with l.
    change (if strings.HasSuffix lst (String CR "")
            then strings.take (String.length lst - 1) lst else lst)
      with (strings.TrimSuffix lst (String CR "")).
    destruct (bool_decide _); [done|by rewrite app_nil_r].
Qed.

(** ** The extractors *)

Section Extractors.
Context {J : json.Codec} {World : Type} {P : Platform World}.

Lemma elements_ok (vs : list json.Value) :
  Forall isStringOrNull vs → json.elements vs = Ok (stringOf <$> vs).
Proof.
  induction 1 as [|v vs Hv _ IH]; [done|].
  cbn [json.elements fmap list_fmap]. rewrite IH.
  by destruct v.
Qed.

Lemma elements_err (pre post : list json.Value) (v : json.Value) :
  Forall isStringOrNull pre → ¬ isStringOrNull v →
  json.elements (pre ++ v :: post) = Err (json.typeError v).
Proof.
  intros Hpre Hv. induction Hpre as [|u pre Hu _ IH].
  - cbn. by destruct v; cbn in Hv.
  - cbn [app json.elements]. rewrite IH. by destruct u.
Qed.

(** C8, amended.  [fetchTextLines] splits the fetched content at every
    newline byte and nowhere else: the lines joined by newlines give the
    content back, there is one line more than there are newlines, no
    line holds a newline, and empty lines are kept.  A line that ended
    in carriage return and newline keeps its carriage return.  It is
    [splitLines], which reads the local declaration files, that takes
    one trailing carriage return off every line; it also leaves out the
    last line when that is empty. *)
Theorem fetchTextLines_splits_on_newline (url : string) (w w' : World)
  (b : string) :
  (fetch url w = (w', Ret (Ok b)) →
   fetchTextLines url w = (w', Ret (Ok (strings.Split b LF))))
  ∧ strings.Join (strings.Split b LF) (String LF "") = b
  ∧ length (strings.Split b LF) = S (strings.Count b LF)
  ∧ Forall (fun line => strings.Count line LF = 0) (strings.Split b LF)
  ∧ (∀ line rest, strings.Count line LF = 0 →
       strings.Split (line +:+ String LF rest) LF
       = line :: strings.Split rest LF)
  ∧ (∀ line rest, strings.Count line LF = 0 →
       strings.Split (line +:+ String CR (String LF rest)) LF
       = (line +:+ String CR "") :: strings.Split rest LF)
  ∧ (∃ lines lst,
       strings.Split b LF = lines ++ [lst]
       ∧ splitLines b
         = ((fun l => strings.TrimSuffix l (String CR "")) <$> lines)
           ++ (if bool_decide (strings.TrimSuffix lst (String CR "") ≠ "")
               then [strings.TrimSuffix lst (String CR "")] else [])).
Proof.
  split_and!.
  - intros Hf. unfold fetchTextLines, bind. by rewrite Hf.
  - apply Join_Split.
  - apply length_Split.
  - apply Split_pieces.
  - intros line rest. apply Split_line.
  - intros line rest Hline.
    change (String CR (String LF rest)) with (String CR "" +:+ String LF rest).
    rewrite <-app_assoc_string. apply Split_line.
    clear -Hline. induction line as [|c line IH]; [done|].
    rewrite app_String. cbn [strings.Count] in Hline |- *.
    destruct (Ascii.eqb c LF); [done|]. by apply IH.
  - apply splitLines_Split.
Qed.

(** C7, amended.  [fetchJSONStrings] returns a decode error, which wraps
    the decoder's, when the content is not JSON, when its value is
    neither an array nor [null], and when it is an array one of whose
    elements is neither a string nor [null].  The content [null] gives
    the empty sequence and a [null] element gives the empty string,
    without error; an array of strings gives its strings. *)
Theorem fetchJSONStrings_decode (url : string) (w w' : World) (b : string) :
  (fetch url w = (w', Ret (Ok b)) →
   fetchJSONStrings url w
   = (w', Ret (match json.Unmarshal b with
               | Err e => Err (wrapError ("decode json: " +:+ Error e) e)
               | Ok arr => Ok arr
               end)))
  ∧ (∀ e, json.parse b = Err e → json.Unmarshal b = Err e)
  ∧ (∀ v, json.parse b = Ok v → v ≠ json.Null → (∀ vs, v ≠ json.Array vs) →
          json.Unmarshal b = Err (json.typeError v))
  ∧ (∀ pre v post,
       json.parse b = Ok (json.Array (pre ++ v :: post)) →
       Forall isStringOrNull pre → ¬ isStringOrNull v →
       json.Unmarshal b = Err (json.typeError v))
  ∧ (∀ vs, json.parse b = Ok (json.Array vs) → Forall isStringOrNull vs →
           json.Unmarshal b = Ok (stringOf <$> vs))
  ∧ (json.parse b = Ok json.Null → json.Unmarshal b = Ok [])
  ∧ (∀ l, json.parse b = Ok (json.Array (json.Str <$> l)) →
          json.Unmarshal b = Ok l).
Proof.
  split_and!; [|unfold json.Unmarshal..].
  - intros Hf. unfold fetchJSONStrings, bind. rewrite Hf.
    by destruct (json.Unmarshal b).
  - by intros e ->.
  - intros v -> Hnull Harr. destruct v; try done. by destruct (Harr elems).
  - intros pre v post -> Hpre Hv. by apply elements_err.
  - intros vs -> Hvs. by apply elements_ok.
  - by intros ->.
  - intros l ->. rewrite elements_ok.
    + f_equal. rewrite <-list_fmap_compose. apply list_fmap_id.
    + apply Forall_fmap, Forall_true. done.
Qed.

End Extractors.

(** A number where a string is expected, and a value that is no array,
    are type errors; an array of strings is decoded into its strings. *)
Example Unmarshal_examples :
  json.Unmarshal (J:=Sim.codec) "[1]"
  = Err (json.typeError (Codec:=Sim.codec) (json.Number "1"))
  ∧ json.Unmarshal (J:=Sim.codec) "{}"
    = Err (json.typeError (Codec:=Sim.codec) (json.Object []))
  ∧ json.Unmarshal (J:=Sim.codec)
      ("[" +:+ Sim.quote +:+ "trusted.org" +:+ Sim.quote +:+ "]")
    = Ok ["trusted.org"]
  ∧ (∃ e, json.Unmarshal (J:=Sim.codec) "[" = Err e).
Proof. split_and!; [done..|by eexists]. Qed.

(** ** The writer and [Run] *)

Section Writer.
Context {J : json.Codec} {World : Type} {P : Platform World}.

Lemma writeOutputs_untilFailure (cfg : Config) (deny allow : list string) :
  writeOutputs cfg deny allow = untilFailure (outputWrites cfg deny allow).
Proof. done. Qed.

Lemma untilFailure_abort (pre post : list (M World (option error)))
  (wr : M World (option error)) (w w3 w4 : World) (werr : error) :
  succeed pre w = Some w3 → wr w3 = (w4, Ret (Some werr)) →
  untilFailure (pre ++ wr :: post) w = (w4, Ret (Some werr)).
Proof.
  revert w. induction pre as [|wr0 pre IH]; intros w Hpre Hwr.
  - injection Hpre as ->. cbn. unfold bind. by rewrite Hwr.
  - cbn in Hpre |- *. unfold bind.
    destruct (wr0 w) as [w1 [[e|]|]]; try done. by apply IH.
Qed.

Lemma untilFailure_succeed (writes : list (M World (option error)))
  (w w3 : World) :
  succeed writes w = Some w3 → untilFailure writes w = (w3, Ret None).
Proof.
  revert w. induction writes as [|wr writes IH]; intros w Hs.
  - by injection Hs as ->.
  - cbn in Hs |- *. unfold bind.
    destruct (wr w) as [w1 [[e|]|]]; try done. by apply IH.
Qed.

Lemma ensureDir_returns (dir : string) : returns (ensureDir dir).
Proof.
  intros w. unfold ensureDir.
  destruct (_ || _); [by eexists _, _|].
  unfold lift. destruct (os_MkdirAll dir w). by eexists _, _.
Qed.

Lemma writeText_returns (path : string) (lines : list string) :
  returns (writeText path lines).
Proof.
  intros w. unfold writeText, bind.
  destruct (ensureDir_returns (filepath_Dir path) w) as (w1 & [e|] & ->);
    [by eexists _, _|].
  unfold lift. destruct (os_WriteFile _ _ w1). by eexists _, _.
Qed.

Lemma writeJSON_returns (path : string) (arr : list string) :
  returns (writeJSON path arr).
Proof.
  intros w. unfold writeJSON, bind.
  destruct (ensureDir_returns (filepath_Dir path) w) as (w1 & [e|] & ->);
    [by eexists _, _|].
  destruct (json.MarshalIndent arr); [|by eexists _, _].
  unfold lift. destruct (os_WriteFile _ _ w1). by eexists _, _.
Qed.

Lemma outputWrites_return (cfg : Config) (deny allow : list string) :
  Forall returns (outputWrites cfg deny allow).
Proof.
  repeat constructor; auto using writeText_returns, writeJSON_returns.
Qed.

(** Writes that return either all succeed or have a first failure. *)
Lemma succeed_or_fail (writes : list (M World (option error))) (w : World) :
  Forall returns writes →
  (∃ w3, succeed writes w = Some w3)
  ∨ (∃ pre wr post w3 w4 werr,
       writes = pre ++ wr :: post ∧ succeed pre w = Some w3
       ∧ wr w3 = (w4, Ret (Some werr))).
Proof.
  intros Hall. revert w.
  induction Hall as [|wr writes Hwr _ IH]; intros w; [left; by eexists|].
  destruct (Hwr w) as (w1 & [e|] & Hw).
  - right. by exists [], wr, writes, w, w1, e.
  - destruct (IH w1) as [[w3 H3]|(pre & wr' & post & w3 & w4 & werr & -> & H3 & H4)].
    + left. exists w3. cbn. by rewrite Hw.
    + right. exists (wr :: pre), wr', post, w3, w4, werr.
      split_and!; [done| |done]. cbn. by rewrite Hw.
Qed.

(** What the files hold after the writes, by a reading [readFile] of
    the file system. *)
Lemma ensureDir_readFile (readFile : World → string → option string)
  (dir : string) (w w' : World) :
  readsFiles readFile → ensureDir dir w = (w', Ret None) →
  ∀ p, readFile w' p = readFile w p.
Proof.
  intros [Hmk _]. unfold ensureDir. destruct (_ || _).
  - by intros [= ->].
  - unfold lift. destruct (os_MkdirAll dir w) as [w1 e] eqn:Hdir.
    intros [= -> ->]. by apply (Hmk dir).
Qed.

Lemma writeText_readFile (readFile : World → string → option string)
  (path : string) (lines : list string) (w w' : World) :
  readsFiles readFile → writeText path lines w = (w', Ret None) →
  readFile w' path = Some (strings.Join lines (String LF ""))
  ∧ ∀ p, p ≠ path → readFile w' p = readFile w p.
Proof.
  intros Hfs. unfold writeText, bind.
  destruct (ensureDir (filepath_Dir path) w) as [w1 [[e|]|]] eqn:Hdir;
    try done.
  unfold lift.
  destruct (os_WriteFile path _ w1) as [w2 e] eqn:Hwr. intros [= -> ->].
  destruct (proj2 Hfs _ _ _ _ Hwr) as [Hnew Hold]. split; [done|].
  intros p Hp. rewrite (Hold p Hp).
  by apply (ensureDir_readFile readFile (filepath_Dir path)).
Qed.

Lemma writeJSON_readFile (readFile : World → string → option string)
  (path : string) (arr : list string) (w w' : World) :
  readsFiles readFile → writeJSON path arr w = (w', Ret None) →
  (∃ b, json.MarshalIndent arr = Ok b ∧ readFile w' path = Some b)
  ∧ ∀ p, p ≠ path → readFile w' p = readFile w p.
Proof.
  intros Hfs. unfold writeJSON, bind.
  destruct (ensureDir (filepath_Dir path) w) as [w1 [[e|]|]] eqn:Hdir;
    try done.
  destruct (json.MarshalIndent arr) as [b|e]; [|done].
  unfold lift.
  destruct (os_WriteFile path b w1) as [w2 e] eqn:Hwr. intros [= -> ->].
  destruct (proj2 Hfs _ _ _ _ Hwr) as [Hnew Hold]. split; [by exists b|].
  intros p Hp. rewrite (Hold p Hp).
  by apply (ensureDir_readFile readFile (filepath_Dir path)).
Qed.

(** [writeOutputs] reports no error only when each of its four writes
    has been done and has reported none. *)
Lemma writeOutputs_succeeds (cfg : Config) (deny allow : list string)
  (w w' : World) :
  writeOutputs cfg deny allow w = (w', Ret None) →
  ∃ wa wb wc,
    writeText (TextDenyOut cfg) deny w = (wa, Ret None)
    ∧ writeJSON (JSONDenyOut cfg) deny wa = (wb, Ret None)
    ∧ writeText (TextAllowOut cfg) allow wb = (wc, Ret None)
    ∧ writeJSON (JSONAllowOut cfg) allow wc = (w', Ret None).
Proof.
  unfold writeOutputs, bind at 1.
  destruct (writeText (TextDenyOut cfg) deny w) as [wa [[e|]|]] eqn:Ha;
    try done.
  unfold bind at 1.
  destruct (writeJSON (JSONDenyOut cfg) deny wa) as [wb [[e|]|]] eqn:Hb;
    try done.
  unfold bind at 1.
  destruct (writeText (TextAllowOut cfg) allow wb) as [wc [[e|]|]] eqn:Hc;
    try done.
  unfold bind at 1.
  destruct (writeJSON (JSONAllowOut cfg) allow wc) as [wd [[e|]|]] eqn:Hd;
    try done.
  intros [= ->]. by exists wa, wb, wc.
Qed.

Lemma writeOutputs_readFile (readFile : World → string → option string)
  (cfg : Config) (deny allow : list string) (w w' : World) :
  readsFiles readFile → NoDup (outputPaths cfg) →
  writeOutputs cfg deny allow w = (w', Ret None) →
  readFile w' (TextDenyOut cfg) = Some (strings.Join deny (String LF ""))
  ∧ (∃ b, json.MarshalIndent deny = Ok b
          ∧ readFile w' (JSONDenyOut cfg) = Some b)
  ∧ readFile w' (TextAllowOut cfg) = Some (strings.Join allow (String LF ""))
  ∧ (∃ b, json.MarshalIndent allow = Ok b
          ∧ readFile w' (JSONAllowOut cfg) = Some b).
Proof.
  intros Hfs Hpaths (wa & wb & wc & H1 & H2 & H3 & H4)%writeOutputs_succeeds.
  unfold outputPaths in Hpaths.
  rewrite !NoDup_cons, !not_elem_of_cons in Hpaths.
  destruct Hpaths as ((Htd1 & Htd2 & Htd3 & _) & (Hjd1 & Hjd2 & _)
                      & (Hta1 & _) & _).
  destruct (writeText_readFile readFile _ _ _ _ Hfs H1) as [Ha _].
  destruct (writeJSON_readFile readFile _ _ _ _ Hfs H2) as [Hb Hb'].
  destruct (writeText_readFile readFile _ _ _ _ Hfs H3) as [Hc Hc'].
  destruct (writeJSON_readFile readFile _ _ _ _ Hfs H4) as [Hd Hd'].
  split_and!.
  - by rewrite Hd', Hc', Hb'.
  - destruct Hb as (b & Hb1 & Hb2). exists b. split; [done|].
    by rewrite Hd', Hc'.
  - by rewrite Hd'.
  - done.
Qed.

End Writer.

Section RunClaims.
Context {U : strings.Unicode} {T : publicsuffix.Table} {J : json.Codec}.
Context {World : Type} {P : Platform World}.

(** C9.  Once the two gathering passes have returned, with the
    diagnostics [derr] and [aerr] if any, [Run] does the four writes in
    order.  At the first write that fails it stops: the world is left as
    that write left it, with the earlier writes done and the later ones
    not attempted, and [Run] returns zero counts and an error.  Without
    fetch diagnostics the error is the write error itself; with them it
    is an error that wraps the write error and whose message is the
    messages of the diagnostics, those of the deny pass before those of
    the allow pass, and then the message of the write error, each
    separated from the next by a semicolon and a space.  If no write
    fails, [Run] returns the lengths of the two lists and, when there
    are diagnostics, an error whose message is their messages in the
    same order, and no error otherwise.  One of the two cases always
    applies. *)
Theorem Run_write_failure_is_fatal (cfg : Config) (w0 w1 w2 : World)
  (rawDeny rawAllow : list string) (derr aerr : option error) :
  obtainAllDomains (TextDeny cfg) (JSONDeny cfg) w0
  = (w1, Ret (rawDeny, derr)) →
  obtainAllDomains (TextAllow cfg) (JSONAllow cfg) w1
  = (w2, Ret (rawAllow, aerr)) →
  let lists := reconcile rawDeny rawAllow (SecureLocal cfg) in
  let writes := outputWrites cfg lists.1 lists.2 in
  let diagnostics :=
    match derr, aerr with
    | None, None => None
    | Some d, None => Some (Error d)
    | None, Some a => Some (Error a)
    | Some d, Some a => Some (Error d +:+ "; " +:+ Error a)
    end in
  (∀ pre wr post w3 w4 werr,
     writes = pre ++ wr :: post → succeed pre w2 = Some w3 →
     wr w3 = (w4, Ret (Some werr)) →
     Run cfg w0
     = (w4, Ret (0, 0,
                 Some (match diagnostics with
                       | Some msg => wrapError (msg +:+ "; " +:+ Error werr) werr
                       | None => werr
                       end))))
  ∧ (∀ w3, succeed writes w2 = Some w3 →
           Run cfg w0
           = (w3, Ret (length lists.1, length lists.2,
                       errorString <$> diagnostics)))
  ∧ ((∃ w3, succeed writes w2 = Some w3)
     ∨ (∃ pre wr post w3 w4 werr,
          writes = pre ++ wr :: post ∧ succeed pre w2 = Some w3
          ∧ wr w3 = (w4, Ret (Some werr)))).
Proof.
  intros Hd Ha lists writes diagnostics.
  assert (Hdiag : combineFetchErrors derr aerr = errorString <$> diagnostics).
  { subst diagnostics. by destruct derr, aerr. }
  assert (HRun : Run cfg w0
    = bind (writeOutputs cfg lists.1 lists.2)
        (fun werr =>
           match werr with
           | Some werr =>
               match combineFetchErrors derr aerr with
               | Some err =>
                   ret (0, 0, Some (wrapError
                                      (Error err +:+ "; " +:+ Error werr) werr))
               | None => ret (0, 0, Some werr)
               end
           | None => ret (length lists.1, length lists.2,
                          combineFetchErrors derr aerr)
           end) w2).
  { unfold Run. unfold bind at 1. rewrite Hd. unfold bind at 1. rewrite Ha.
    subst lists. by destruct (reconcile rawDeny rawAllow (SecureLocal cfg)). }
  rewrite HRun, writeOutputs_untilFailure, Hdiag. fold writes.
  split_and!.
  - intros pre wr post w3 w4 werr Hw Hpre Hwr. unfold bind.
    rewrite Hw, (untilFailure_abort pre post wr w2 w3 w4 werr) by done.
    by destruct diagnostics.
  - intros w3 Hs. unfold bind. by rewrite (untilFailure_succeed _ _ _ Hs).
  - apply succeed_or_fail, outputWrites_return.
Qed.

(** The lines of a text artifact made of ascending entries without
    newline are ascending. *)
Lemma Split_Join_ascending (l : list string) :
  Forall (fun e => strings.Count e LF = 0) l → StronglySorted strings.lt l →
  StronglySorted strings.lt (strings.Split (strings.Join l (String LF "")) LF).
Proof.
  intros Hall Hl. destruct l as [|e l].
  - cbn. repeat constructor.
  - by rewrite Split_Join.
Qed.

Lemma reconcile_ascending (deny allow secure : list string) :
  StronglySorted strings.lt (reconcile deny allow secure).1
  ∧ StronglySorted strings.lt (reconcile deny allow secure).2.
Proof.
  unfold reconcile. cbn [fst snd]. split.
  - eapply StronglySorted_lt_sublist;
      [apply difference_sublist|apply uniqueSorted_ascending].
  - apply uniqueSorted_ascending.
Qed.

(** [Run] when both gathering passes have returned and no write
    fails. *)
Lemma Run_writes_done (cfg : Config) (w0 w1 w2 w3 : World)
  (rawDeny rawAllow : list string) (derr aerr : option error) :
  obtainAllDomains (TextDeny cfg) (JSONDeny cfg) w0
  = (w1, Ret (rawDeny, derr)) →
  obtainAllDomains (TextAllow cfg) (JSONAllow cfg) w1
  = (w2, Ret (rawAllow, aerr)) →
  writeOutputs cfg (reconcile rawDeny rawAllow (SecureLocal cfg)).1
    (reconcile rawDeny rawAllow (SecureLocal cfg)).2 w2 = (w3, Ret None) →
  Run cfg w0
  = (w3, Ret (length (reconcile rawDeny rawAllow (SecureLocal cfg)).1,
              length (reconcile rawDeny rawAllow (SecureLocal cfg)).2,
              combineFetchErrors derr aerr)).
Proof.
  intros Hd Ha. unfold Run. unfold bind at 1. rewrite Hd.
  unfold bind at 1. rewrite Ha.
  destruct (reconcile rawDeny rawAllow (SecureLocal cfg)) as [deny allow].
  cbn [fst snd]. intros Hw. unfold bind. by rewrite Hw.
Qed.

(** C6, amended.  [uniqueSorted] drops the empty entries and the
    repetitions and returns the remaining entries in strictly increasing
    byte-wise lexicographic order; the result depends on the entries of
    the input only, not on their order, nor on the order in which the
    keys of the intermediate map are visited.  Both published lists are
    in strictly increasing order, and a list without newline in its
    entries is read back from its entries joined by newlines.  When the
    gathering passes have returned and [writeOutputs] reports no error
    on the published lists, [Run] returns their lengths and leaves four
    files, their paths being distinct: each text file holds the entries
    of its list joined by newlines, so that its lines are in strictly
    increasing order when no entry of the list holds a newline; each
    JSON file holds what [json.MarshalIndent] gives for its list, which
    a decoder that reads back what the encoder writes for the list
    decodes into the list, in its strictly increasing order. *)
Theorem uniqueSorted_strictly_ascending (in_ : list string) :
  StronglySorted strings.lt (uniqueSorted in_)
  ∧ NoDup (uniqueSorted in_)
  ∧ (∀ s, s ∈ uniqueSorted in_ ↔ s ∈ in_ ∧ s ≠ "")
  ∧ (∀ in', in_ ≡ₚ in' → uniqueSorted in' = uniqueSorted in_)
  ∧ (∀ keys,
       keys ≡ₚ elements (list_to_set (filter (fun s => s ≠ "") in_)
                         : gset string) →
       sort.Strings keys = uniqueSorted in_)
  ∧ (∀ deny allow secure,
       StronglySorted strings.lt (reconcile deny allow secure).1
       ∧ StronglySorted strings.lt (reconcile deny allow secure).2)
  ∧ (∀ lines, lines ≠ [] →
       Forall (fun e => strings.Count e LF = 0) lines →
       strings.Split (strings.Join lines (String LF "")) LF = lines)
  ∧ (∀ (cfg : Config) (w0 w1 w2 w3 : World) (rawDeny rawAllow : list string)
       (derr aerr : option error) (readFile : World → string → option string),
       obtainAllDomains (TextDeny cfg) (JSONDeny cfg) w0
       = (w1, Ret (rawDeny, derr)) →
       obtainAllDomains (TextAllow cfg) (JSONAllow cfg) w1
       = (w2, Ret (rawAllow, aerr)) →
       let deny := (reconcile rawDeny rawAllow (SecureLocal cfg)).1 in
       let allow := (reconcile rawDeny rawAllow (SecureLocal cfg)).2 in
       writeOutputs cfg deny allow w2 = (w3, Ret None) →
       readsFiles readFile → NoDup (outputPaths cfg) →
       (∃ err, Run cfg w0 = (w3, Ret (length deny, length allow, err)))
       ∧ StronglySorted strings.lt deny
       ∧ StronglySorted strings.lt allow
       ∧ readFile w3 (TextDenyOut cfg)
         = Some (strings.Join deny (String LF ""))
       ∧ readFile w3 (TextAllowOut cfg)
         = Some (strings.Join allow (String LF ""))
       ∧ (Forall (fun e => strings.Count e LF = 0) deny →
            StronglySorted strings.lt
              (strings.Split (strings.Join deny (String LF "")) LF))
       ∧ (Forall (fun e => strings.Count e LF = 0) allow →
            StronglySorted strings.lt
              (strings.Split (strings.Join allow (String LF "")) LF))
       ∧ (∃ b, json.MarshalIndent deny = Ok b
               ∧ readFile w3 (JSONDenyOut cfg) = Some b
               ∧ (readsBack deny → json.Unmarshal b = Ok deny))
       ∧ (∃ b, json.MarshalIndent allow = Ok b
               ∧ readFile w3 (JSONAllowOut cfg) = Some b
               ∧ (readsBack allow → json.Unmarshal b = Ok allow))).
Proof.
  split_and!.
  - apply uniqueSorted_ascending.
  - apply uniqueSorted_NoDup.
  - apply elem_of_uniqueSorted.
  - intros in' Hp. apply uniqueSorted_ext. intros s. by rewrite Hp.
  - apply uniqueSorted_any_iteration_order.
  - apply reconcile_ascending.
  - intros lines. apply Split_Join.
  - intros cfg w0 w1 w2 w3 rawDeny rawAllow derr aerr readFile Hd Ha
      deny allow Hw Hfs Hpaths.
    destruct (reconcile_ascending rawDeny rawAllow (SecureLocal cfg))
      as [Hdeny Hallow].
    destruct (writeOutputs_readFile readFile cfg deny allow w2 w3
                Hfs Hpaths Hw)
      as (Htd & (bd & Hbd & Hjd) & Hta & (ba & Hba & Hja)).
    split_and!; try done.
    + eexists. by apply (Run_writes_done cfg w0 w1 w2 w3).
    + intros Hall. by apply Split_Join_ascending.
    + intros Hall. by apply Split_Join_ascending.
    + exists bd. split_and!; [done..|]. intros Hback. by apply Hback.
    + exists ba. split_and!; [done..|]. intros Hback. by apply Hback.
Qed.

End RunClaims.

(** ** The claims on the test doubles *)

(** With the rules of [Sim.table], [net] is a public suffix, and the
    deny entry [mail.good.net] goes when [good.net] is secure. *)
Lemma removeSecureDomainsByETLD1_mail_good_net :
  "mail.good.net"
  ∉ removeSecureDomainsByETLD1 (T:=Sim.table)
      ["mail.good.net"; "evil.com"; "good.net.evil.com"] ["good.net"].
Proof.
  apply (removeSecureDomainsByETLD1_by_key (T:=Sim.table)
           ["mail.good.net"; "evil.com"; "good.net.evil.com"] ["good.net"]).
  - reflexivity.
  - reflexivity.
  - apply list_elem_of_here.
Defined.

(** The claim C8 as it is stated fails: of the content
    [Example.COM\r\n*.spam.io\n] the first line comes back with its
    carriage return.  [splitLines], for its part, takes one carriage
    return only off a line, and drops the empty line that ends a
    content. *)
Lemma fetchTextLines_keeps_carriage_return :
  fetchTextLines (P:=Sim.platform) Sim.denyURL Sim.world
  = (Sim.world,
     Ret (Ok ["Example.COM" +:+ String CR ""; "*.spam.io"; ""]))
  ∧ strings.HasSuffix ("Example.COM" +:+ String CR "") (String CR "") = true
  ∧ splitLines ("a.com" +:+ String CR (String CR (String LF "")))
    = ["a.com" +:+ String CR ""]
  ∧ splitLines ("a.com" +:+ String LF "") = ["a.com"].
Proof. by vm_compute. Qed.

Lemma fetchTextLines_splits_on_newline_witness :
  fetchTextLines (P:=Sim.platform) Sim.denyURL Sim.world
  = (Sim.world,
     Ret (Ok (strings.Split
                ("Example.COM" +:+ String CR (String LF "")
                 +:+ "*.spam.io" +:+ String LF "") LF))).
Proof.
  apply (fetchTextLines_splits_on_newline (P:=Sim.platform)
           Sim.denyURL Sim.world Sim.world).
  vm_compute. reflexivity.
Defined.

(** The claim C7 as it is stated fails: the content [null] is no array
    of strings, and it is decoded into the empty sequence, without
    error; the array [[null]] is decoded into one empty string. *)
Lemma fetchJSONStrings_null_is_no_error :
  json.parse (Codec:=Sim.codec) "null" = Ok json.Null
  ∧ ¬ isArrayOfStrings json.Null
  ∧ fetchJSONStrings (J:=Sim.codec) (P:=Sim.platform) Sim.allowURL Sim.world
    = (Sim.world, Ret (Ok []))
  ∧ ¬ isArrayOfStrings (json.Array [json.Null])
  ∧ json.Unmarshal (J:=Sim.codec) "[null]" = Ok [""].
Proof.
  split_and!; [done| |done| |done].
  - by intros [l Hl].
  - intros [[|s l] Hl]; discriminate Hl.
Qed.

Lemma fetchJSONStrings_decode_witness :
  fetchJSONStrings (J:=Sim.codec) (P:=Sim.platform) Sim.allowURL Sim.world
  = (Sim.world, Ret (Ok [])).
Proof.
  apply (fetchJSONStrings_decode (J:=Sim.codec) (P:=Sim.platform)
           Sim.allowURL Sim.world Sim.world "null").
  vm_compute. reflexivity.
Defined.

(** [Run] on [SimOut.brokenConfig]: the deny pass leaves the diagnostic
    of the source that cannot be reached, the allow pass that of the
    source that is no array; the deny files are written, the allow text
    file cannot be, the allow JSON file is not attempted, and the error
    wraps the write error after the two diagnostics. *)
Lemma Run_write_failure_witness :
  Run (U:=Sim.asciiOnly) (T:=Sim.table) (J:=Sim.codec) (P:=Sim.platform)
      SimOut.brokenConfig SimOut.brokenWorld
  = ({| Sim.web := Sim.web SimOut.brokenWorld;
        Sim.readOnly := ["lists/allow.txt"];
        Sim.files :=
          [ ("lists/deny.json",
             "[" +:+ String LF "  " +:+ Sim.quote +:+ "example.com"
             +:+ Sim.quote +:+ "," +:+ String LF "  " +:+ Sim.quote
             +:+ "spam.io" +:+ Sim.quote +:+ String LF "]");
            ("lists/deny.txt", "example.com" +:+ String LF "spam.io") ];
        Sim.waited := 3000 |},
     Ret (0, 0,
          Some (wrapError
                  ("http://lists.test/gone.txt: no such host; "
                   +:+ "http://lists.test/broken.json: "
                   +:+ "decode json: json: cannot unmarshal object; "
                   +:+ "open lists/allow.txt: permission denied")
                  (errorString "open lists/allow.txt: permission denied")))).
Proof.
  pose proof
    (Run_write_failure_is_fatal
       (U:=Sim.asciiOnly) (T:=Sim.table) (J:=Sim.codec) (P:=Sim.platform)
       SimOut.brokenConfig SimOut.brokenWorld
       {| Sim.web := Sim.web SimOut.brokenWorld;
          Sim.readOnly := ["lists/allow.txt"];
          Sim.files := []; Sim.waited := 3000 |}
       {| Sim.web := Sim.web SimOut.brokenWorld;
          Sim.readOnly := ["lists/allow.txt"];
          Sim.files := []; Sim.waited := 3000 |}
       ["Example.COM" +:+ String CR ""; "*.spam.io"; ""] []
       (Some (errorString "http://lists.test/gone.txt: no such host"))
       (Some (errorString
                ("http://lists.test/broken.json: "
                 +:+ "decode json: json: cannot unmarshal object")))
       eq_refl eq_refl) as [Hfail _].
  refine (Hfail
    [writeText (P:=Sim.platform) "lists/deny.txt" ["example.com"; "spam.io"];
     writeJSON (J:=Sim.codec) (P:=Sim.platform) "lists/deny.json"
       ["example.com"; "spam.io"]]
    (writeText (P:=Sim.platform) "lists/allow.txt" ["good.net"])
    [writeJSON (J:=Sim.codec) (P:=Sim.platform) "lists/allow.json" ["good.net"]]
    _ _ (errorString "open lists/allow.txt: permission denied") _ _ _).
  - vm_compute. reflexivity.
  - vm_compute. reflexivity.
  - vm_compute. reflexivity.
Defined.

(** The claim C6 as it is stated fails for the text artifact.  A JSON
    source answers the array of [b\na], an entry that holds a newline,
    and [c].  The published deny list is these two entries, in
    increasing order; the text file holds them joined by newlines, and
    its lines are [b], [a] and [c], which are not in increasing order.
    The JSON file holds the two entries in their order. *)
Lemma text_artifact_lines_not_ascending :
  json.Unmarshal (J:=SimOut.codec) SimOut.linesDocument
  = Ok ["b" +:+ String LF "a"; "c"]
  ∧ reconcile (U:=Sim.asciiOnly) (T:=Sim.table)
      ["b" +:+ String LF "a"; "c"] [] []
    = (["b" +:+ String LF "a"; "c"], [])
  ∧ Run (U:=Sim.asciiOnly) (T:=Sim.table) (J:=SimOut.codec) (P:=Sim.platform)
        SimOut.linesConfig SimOut.linesWorld
    = ({| Sim.web := Sim.web SimOut.linesWorld;
          Sim.readOnly := [];
          Sim.files :=
            [ ("lists/allow.json", "[]");
              ("lists/allow.txt", "");
              ("lists/deny.json",
               "[" +:+ String LF "  " +:+ Sim.quote +:+ "b"
               +:+ SimOut.backslash +:+ "na" +:+ Sim.quote +:+ ","
               +:+ String LF "  " +:+ Sim.quote +:+ "c" +:+ Sim.quote
               +:+ String LF "]");
              ("lists/deny.txt",
               "b" +:+ String LF "a" +:+ String LF "c") ];
          Sim.waited := 0 |},
       Ret (2, 0, None))
  ∧ strings.Split ("b" +:+ String LF "a" +:+ String LF "c") LF
    = ["b"; "a"; "c"]
  ∧ ¬ StronglySorted strings.lt ["b"; "a"; "c"].
Proof.
  split_and!; [by vm_compute..|].
  intros Hs. apply StronglySorted_inv in Hs as [_ Hb].
  apply Forall_inv in Hb. discriminate Hb.
Qed.

(** [SimOut.readFile] reads the files of [Sim.platform]. *)
Lemma SimOut_readsFiles : readsFiles (P:=Sim.platform) SimOut.readFile.
Proof.
  split.
  - intros dir w w' [= ->]. done.
  - intros path content w w'. cbn [os_WriteFile Sim.platform].
    destruct (bool_decide _); [done|]. intros [= <-].
    unfold SimOut.readFile. cbn [Sim.files list_find]. split.
    + by rewrite decide_True.
    + intros p Hp. rewrite decide_False by (cbn; congruence).
      by destruct (list_find _ (Sim.files w)) as [[i f]|].
Qed.

(** The run on [Sim.config] from [SimOut.writableWorld]: the deny text
    file holds the two published deny entries, a line each and in
    increasing order, and the deny JSON file is decoded into them. *)
Lemma uniqueSorted_strictly_ascending_witness :
  (∃ err,
     Run (U:=Sim.asciiOnly) (T:=Sim.table) (J:=SimOut.codec) (P:=Sim.platform)
         Sim.config SimOut.writableWorld
     = (SimOut.writtenWorld, Ret (2, 1, err)))
  ∧ SimOut.readFile SimOut.writtenWorld "lists/deny.txt"
    = Some ("example.com" +:+ String LF "spam.io")
  ∧ StronglySorted strings.lt
      (strings.Split ("example.com" +:+ String LF "spam.io") LF)
  ∧ (∃ b, SimOut.readFile SimOut.writtenWorld "lists/deny.json" = Some b
          ∧ json.Unmarshal (J:=SimOut.codec) b = Ok ["example.com"; "spam.io"])
  ∧ StronglySorted strings.lt ["example.com"; "spam.io"].
Proof.
  set (w3 := SimOut.writtenWorld).
  set (w2 := {| Sim.web := Sim.web Sim.world; Sim.readOnly := [];
                Sim.files := []; Sim.waited := 3000 |}).
  set (raw := ["Example.COM" +:+ String CR ""; "*.spam.io"; ""]).
  set (derr := Some (errorString "http://lists.test/gone.txt: no such host")).
  assert (Hd : obtainAllDomains (U:=Sim.asciiOnly) (J:=SimOut.codec)
                 (P:=Sim.platform) (TextDeny Sim.config) (JSONDeny Sim.config)
                 SimOut.writableWorld = (w2, Ret (raw, derr))).
  { vm_compute. reflexivity. }
  assert (Ha : obtainAllDomains (U:=Sim.asciiOnly) (J:=SimOut.codec)
                 (P:=Sim.platform) (TextAllow Sim.config) (JSONAllow Sim.config)
                 w2 = (w2, Ret ([], None))).
  { vm_compute. reflexivity. }
  assert (Hw : writeOutputs (J:=SimOut.codec) (P:=Sim.platform) Sim.config
                 (reconcile (U:=Sim.asciiOnly) (T:=Sim.table)
                    raw [] (SecureLocal Sim.config)).1
                 (reconcile (U:=Sim.asciiOnly) (T:=Sim.table)
                    raw [] (SecureLocal Sim.config)).2 w2
               = (w3, Ret None)).
  { vm_compute. reflexivity. }
  assert (Hpaths : NoDup (outputPaths Sim.config)).
  { apply (bool_decide_unpack _). vm_compute. exact I. }
  destruct (uniqueSorted_strictly_ascending
              (U:=Sim.asciiOnly) (T:=Sim.table) (J:=SimOut.codec)
              (P:=Sim.platform) [])
    as (_ & _ & _ & _ & _ & _ & _ & Hart).
  destruct (Hart Sim.config SimOut.writableWorld w2 w2 w3 raw [] derr None
              SimOut.readFile Hd Ha Hw SimOut_readsFiles Hpaths)
    as (HRun & Hdeny & _ & Htext & _ & Hlines & _
        & (b & _ & Hjson & Hback) & _).
  assert (Hlists : (reconcile (U:=Sim.asciiOnly) (T:=Sim.table)
                      raw [] (SecureLocal Sim.config)).1
                   = ["example.com"; "spam.io"]).
  { vm_compute. reflexivity. }
  rewrite Hlists in HRun, Hdeny, Htext, Hlines, Hback.
  split_and!.
  - destruct HRun as [err HRun]. exists err. rewrite HRun. f_equal.
  - exact Htext.
  - apply Hlines. repeat constructor.
  - exists b. split; [exact Hjson|]. apply Hback.
    intros b' [= <-]. vm_compute. reflexivity.
  - exact Hdeny.
Defined.

(** The lower-case property on the candidates of the first scenario. *)
Lemma published_lists_lowercase_witness :
  Forall (fun s => strings.ToLower (U:=Sim.asciiOnly) s = s)
    (reconcile (U:=Sim.asciiOnly) (T:=Sim.table)
       ["Example.COM"; "*.spam.io"; "#comment"; ""; "trusted.org"]
       ["trusted.org"] ["good.net"]).1
  ∧ Forall (fun s => strings.ToLower (U:=Sim.asciiOnly) s = s)
      (reconcile (U:=Sim.asciiOnly) (T:=Sim.table)
         ["Example.COM"; "*.spam.io"; "#comment"; ""; "trusted.org"]
         ["trusted.org"] ["good.net"]).2.
Proof.
  apply (published_lists_lowercase (U:=Sim.asciiOnly) (T:=Sim.table)).
  repeat constructor.
Defined.

(** * Further properties of the generator *)

(** ** The reconciler as an algebra of lists *)

Section ListAlgebra.
Context {U : strings.Unicode} {T : publicsuffix.Table}.

Lemma uniqueSorted_same_entries (in_ in' : list string) :
  (∀ s, s ≠ "" → s ∈ in_ ↔ s ∈ in') → uniqueSorted in_ = uniqueSorted in'.
Proof.
  intros Heq. rewrite !uniqueSorted_sort. do 2 f_equal.
  apply set_eq. intros s.
  rewrite !elem_of_list_to_set, !list_elem_of_filter.
  split; intros [Hne Hs]; (split; [done|]); by apply Heq.
Qed.

Lemma ascending_unique (k l : list string) :
  StronglySorted strings.lt k → StronglySorted strings.lt l →
  (∀ s, s ∈ k ↔ s ∈ l) → k = l.
Proof.
  intros Hk Hl Heq. apply (Sorted_unique String.le).
  - by apply StronglySorted_lt_Sorted_le.
  - by apply StronglySorted_lt_Sorted_le.
  - apply NoDup_Permutation; auto using StronglySorted_lt_NoDup.
Qed.

(** A list that is already in strictly increasing order and has no
    empty entry is returned as it is. *)
Theorem uniqueSorted_fixpoint (l : list string) :
  StronglySorted strings.lt l → "" ∉ l → uniqueSorted l = l.
Proof.
  intros Hs Hne. apply ascending_unique; [apply uniqueSorted_ascending|done|].
  intros s. rewrite elem_of_uniqueSorted. split; [tauto|].
  intros Hin. split; [done|]. by intros ->.
Qed.

(** [uniqueSorted] is idempotent, does not depend on the order in which
    two lists are put together nor on an entry being repeated, returns
    nothing for an input of empty entries, and never returns more
    entries than it is given. *)
Theorem uniqueSorted_algebra (a b : list string) :
  uniqueSorted (uniqueSorted a) = uniqueSorted a
  ∧ uniqueSorted (a ++ b) = uniqueSorted (b ++ a)
  ∧ uniqueSorted (a ++ a) = uniqueSorted a
  ∧ uniqueSorted (a ++ b) = uniqueSorted (uniqueSorted a ++ uniqueSorted b)
  ∧ uniqueSorted ("" :: a) = uniqueSorted a
  ∧ length (uniqueSorted a) ≤ length a.
Proof.
  split_and!.
  - apply uniqueSorted_same_entries. intros s Hne.
    rewrite elem_of_uniqueSorted. tauto.
  - apply uniqueSorted_same_entries. intros s _. rewrite !elem_of_app. tauto.
  - apply uniqueSorted_same_entries. intros s _. rewrite !elem_of_app. tauto.
  - apply uniqueSorted_same_entries. intros s Hne.
    rewrite !elem_of_app, !elem_of_uniqueSorted. tauto.
  - apply uniqueSorted_same_entries. intros s Hne.
    rewrite elem_of_cons. split; [|tauto]. by intros [->|].
  - apply submseteq_length, NoDup_submseteq; [apply uniqueSorted_NoDup|].
    intros s. rewrite elem_of_uniqueSorted. tauto.
Qed.

Lemma filter_none {A} (P : A → Prop) `{∀ x, Decision (P x)} (l : list A) :
  Forall (fun x => ¬ P x) l → filter P l = [].
Proof.
  induction 1 as [|x l Hx _ IH]; [done|].
  by rewrite filter_cons, decide_False.
Qed.

Lemma filter_all {A} (P : A → Prop) `{∀ x, Decision (P x)} (l : list A) :
  Forall P l → filter P l = l.
Proof.
  induction 1 as [|x l Hx _ IH]; [done|].
  by rewrite filter_cons, decide_True, IH.
Qed.

Lemma filter_filter_and {A} (P Q : A → Prop)
  `{∀ x, Decision (P x)} `{∀ x, Decision (Q x)} (l : list A) :
  filter P (filter Q l) = filter (fun x => P x ∧ Q x) l.
Proof.
  induction l as [|x l IH]; [done|].
  rewrite !filter_cons. destruct (decide (Q x)) as [HQ|HQ].
  - rewrite filter_cons. destruct (decide (P x)) as [HP|HP].
    + rewrite decide_True by done. by rewrite IH.
    + rewrite decide_False by tauto. done.
  - rewrite decide_False by tauto. done.
Qed.

(** [difference] takes nothing away when [b] is empty and everything
    when [b] is [a]; taking away [b] and then [c] is taking away both;
    it works entry by entry, so it keeps the repetitions of [a]. *)
Theorem difference_algebra (a a' b c : list string) :
  difference a [] = a
  ∧ difference [] b = []
  ∧ difference a a = []
  ∧ difference (difference a b) c = difference a (b ++ c)
  ∧ difference (difference a b) b = difference a b
  ∧ difference (a ++ a') b = difference a b ++ difference a' b
  ∧ length (difference a b) ≤ length a
  ∧ (∀ s, s ∈ a → s ∉ b →
          length (filter (fun x => x = s) (difference a b))
          = length (filter (fun x => x = s) a)).
Proof.
  rewrite !difference_filter. split_and!.
  - apply filter_all, Forall_forall. intros x _. apply not_elem_of_nil.
  - done.
  - apply filter_none, Forall_forall. tauto.
  - rewrite filter_filter_and. apply list_filter_iff. intros s.
    rewrite elem_of_app. tauto.
  - rewrite filter_filter_and. apply list_filter_iff. tauto.
  - apply filter_app.
  - apply length_filter.
  - intros s Hs Hb. rewrite filter_filter_and. f_equal.
    apply list_filter_iff. intros x. split; [tauto|]. by intros ->.
Qed.

(** [removeSecureDomainsByETLD1] removes nothing when no entry is
    secure; removing for [s] and then for [s'] is removing for both
    lists at once; it works entry by entry; and once applied, neither a
    secure entry nor any entry with the key of one is left. *)
Theorem removeSecureDomainsByETLD1_algebra (d d' s s' : list string) :
  removeSecureDomainsByETLD1 d [] = d
  ∧ removeSecureDomainsByETLD1 [] s = []
  ∧ removeSecureDomainsByETLD1 (removeSecureDomainsByETLD1 d s) s'
    = removeSecureDomainsByETLD1 d (s ++ s')
  ∧ removeSecureDomainsByETLD1 (removeSecureDomainsByETLD1 d s) s
    = removeSecureDomainsByETLD1 d s
  ∧ removeSecureDomainsByETLD1 (d ++ d') s
    = removeSecureDomainsByETLD1 d s ++ removeSecureDomainsByETLD1 d' s
  ∧ removeSecureDomainsByETLD1 s s = []
  ∧ Forall (fun x => x ∉ removeSecureDomainsByETLD1 d s) s
  ∧ length (removeSecureDomainsByETLD1 d s) ≤ length d.
Proof.
  rewrite !removeSecureDomainsByETLD1_filter. split_and!.
  - apply filter_all, Forall_forall. intros x _. apply not_elem_of_nil.
  - done.
  - rewrite filter_filter_and. apply list_filter_iff. intros x.
    rewrite fmap_app, elem_of_app. tauto.
  - rewrite filter_filter_and. apply list_filter_iff. tauto.
  - apply filter_app.
  - apply filter_none, Forall_forall. intros x Hx Hk. apply Hk.
    apply list_elem_of_fmap. by exists x.
  - apply Forall_forall. intros x Hx. rewrite list_elem_of_filter.
    intros [Hk _]. apply Hk, list_elem_of_fmap. by exists x.
  - apply length_filter.
Qed.

Lemma normalizeAndFilter_app (a b : list string) :
  normalizeAndFilter (a ++ b) = normalizeAndFilter a ++ normalizeAndFilter b.
Proof. by rewrite !normalizeAndFilter_filter, fmap_app, filter_app. Qed.

(** [normalizeAndFilter] returns no empty entry and no comment line; it
    works entry by entry and keeps the order. *)
Theorem normalizeAndFilter_output (a b : list string) :
  Forall (fun s => s ≠ "" ∧ strings.HasPrefix s "#" = false)
         (normalizeAndFilter a)
  ∧ normalizeAndFilter (a ++ b) = normalizeAndFilter a ++ normalizeAndFilter b
  ∧ length (normalizeAndFilter a) ≤ length a
  ∧ normalizeAndFilter a
    `sublist_of` ((fun s => strings.TrimSpace (strings.ToLower s)) <$> a).
Proof.
  rewrite !normalizeAndFilter_filter. split_and!.
  - apply Forall_forall. intros s [Hs _]%list_elem_of_filter.
    split; [tauto|]. destruct (strings.HasPrefix s "#"); [|done].
    destruct Hs. by right.
  - rewrite <-!normalizeAndFilter_filter. apply normalizeAndFilter_app.
  - etrans; [apply length_filter|]. by rewrite length_fmap.
  - apply sublist_filter.
Qed.

Lemma elem_of_cleaned (l l' : list string) :
  (∀ s, s ∈ l ↔ s ∈ l') →
  ∀ x, x ∈ cleanDomains (normalizeAndFilter l)
       ↔ x ∈ cleanDomains (normalizeAndFilter l').
Proof.
  intros Heq x. rewrite !cleanDomains_fmap, !normalizeAndFilter_filter.
  rewrite !list_elem_of_fmap. apply exist_proper. intros y.
  rewrite !list_elem_of_filter, !list_elem_of_fmap.
  apply and_iff_compat_l, and_iff_compat_l, exist_proper. intros s.
  by rewrite Heq.
Qed.

(** The published lists depend on which candidates are gathered, not on
    the order in which the sources deliver them nor on how often a
    candidate occurs. *)
Theorem reconcile_same_entries (deny deny' allow allow' secure secure'
  : list string) :
  (∀ s, s ∈ deny ↔ s ∈ deny') → (∀ s, s ∈ allow ↔ s ∈ allow') →
  (∀ s, s ∈ secure ↔ s ∈ secure') →
  reconcile deny allow secure = reconcile deny' allow' secure'.
Proof.
  intros Hd Ha Hs. unfold reconcile.
  pose proof (elem_of_cleaned _ _ Hd) as Hd'.
  pose proof (elem_of_cleaned _ _ Ha) as Ha'.
  pose proof (elem_of_cleaned _ _ Hs) as Hs'.
  f_equal; [f_equal|]; apply uniqueSorted_same_entries; intros s _.
  - rewrite !removeSecureDomainsByETLD1_filter, !list_elem_of_filter.
    rewrite Hd'. apply and_iff_compat_r, not_iff_compat.
    rewrite !list_elem_of_fmap. apply exist_proper. intros y.
    by rewrite Hs'.
  - apply Ha'.
  - by rewrite !elem_of_app, Ha', Hs'.
Qed.

End ListAlgebra.

(** ** The normalizer applied twice *)

Lemma scanRight_String (c : ascii) (s : string) :
  strings.scanRight (String c s)
  = match strings.scanRight s with
    | strings.Kept EmptyString =>
        if strings.isASCIIByte c then
          if strings.asciiSpace c then strings.Kept EmptyString
          else strings.Kept (String c EmptyString)
        else strings.NonASCII (String c EmptyString)
    | strings.Kept rest => strings.Kept (String c rest)
    | strings.NonASCII rest => strings.NonASCII (String c rest)
    end.
Proof. done. Qed.

Lemma scanRight_Kept_again (s rest : string) :
  strings.scanRight s = strings.Kept rest →
  strings.scanRight rest = strings.Kept rest.
Proof.
  revert rest. induction s as [|c s IH]; intros rest.
  - cbn. by intros [= <-].
  - rewrite scanRight_String.
    destruct (strings.scanRight s) as [r0|r0]; [|by destruct r0].
    specialize (IH r0 eq_refl). destruct r0 as [|c0 r0].
    + destruct (strings.isASCIIByte c) eqn:Hc; [|done].
      destruct (strings.asciiSpace c) eqn:Hsp; intros [= <-]; [done|].
      rewrite scanRight_String. cbn. by rewrite Hc, Hsp.
    + intros [= <-]. rewrite scanRight_String. by rewrite IH.
Qed.

Lemma scanLeft_startsKept (s rest : string) :
  strings.scanLeft s = strings.Kept rest → startsKept rest.
Proof.
  induction s as [|c s IH]; cbn; [by intros [= <-]|].
  destruct (strings.isASCIIByte c) eqn:Hc; [|done].
  destruct (strings.asciiSpace c) eqn:Hsp; [done|]. by intros [= <-].
Qed.

Lemma scanRight_startsKept (s rest : string) :
  startsKept s → strings.scanRight s = strings.Kept rest → startsKept rest.
Proof.
  destruct s as [|c s]; [by intros _ [= <-]|].
  intros [Hc Hsp]. rewrite scanRight_String, Hc, Hsp.
  destruct (strings.scanRight s) as [[|c0 r0]|r0]; [| |done]; by intros [= <-].
Qed.

Lemma startsKept_scanLeft (s : string) :
  startsKept s → strings.scanLeft s = strings.Kept s.
Proof. destruct s as [|c s]; [done|]. cbn. by intros [-> ->]. Qed.

Section Idempotence.
Context {U : strings.Unicode} {T : publicsuffix.Table}.

(** Whenever [TrimSpace] takes its byte-wise path, its result is left
    unchanged by a second [TrimSpace]. *)
Lemma TrimSpace_again (s r r' : string) :
  strings.scanLeft s = strings.Kept r → strings.scanRight r = strings.Kept r' →
  strings.TrimSpace s = r' ∧ strings.TrimSpace r' = r'.
Proof.
  intros Hl Hr. unfold strings.TrimSpace. rewrite Hl, Hr. split; [done|].
  rewrite startsKept_scanLeft
    by eauto using scanRight_startsKept, scanLeft_startsKept.
  by rewrite (scanRight_Kept_again r r').
Qed.

Lemma normalized_fixed (s : string) :
  strings.isASCII s = true →
  strings.TrimSpace (strings.ToLower (strings.TrimSpace (strings.ToLower s)))
  = strings.TrimSpace (strings.ToLower s).
Proof.
  intros Hs. pose proof (ToLower_lowerASCII s Hs) as Hlow.
  destruct (scanLeft_lowerASCII _ Hlow) as (r & Hl & Hr).
  destruct (scanRight_lowerASCII _ Hr) as (r' & Hr' & Hlow').
  destruct (TrimSpace_again _ _ _ Hl Hr') as [-> Hfix].
  by rewrite (ToLower_fixed r' Hlow').
Qed.

(** On candidates that hold ASCII bytes only, normalizing a second time
    changes nothing. *)
Theorem normalizeAndFilter_idempotent (in_ : list string) :
  Forall (fun s => strings.isASCII s = true) in_ →
  normalizeAndFilter (normalizeAndFilter in_) = normalizeAndFilter in_.
Proof.
  intros Hall. induction Hall as [|s l Hs _ IH]; [done|].
  change (s :: l) with ([s] ++ l). rewrite normalizeAndFilter_app.
  assert (H1 : normalizeAndFilter (normalizeAndFilter [s])
               = normalizeAndFilter [s]).
  { rewrite (normalizeAndFilter_filter [s]). cbn [fmap list_fmap].
    rewrite filter_cons. case_decide as Hkeep; [|done].
    rewrite filter_nil, normalizeAndFilter_filter. cbn [fmap list_fmap].
    rewrite normalized_fixed by done.
    by rewrite filter_cons, decide_True. }
  by rewrite normalizeAndFilter_app, H1, IH.
Qed.

End Idempotence.

(** ** Suffixes *)

Lemma rev_app_append (s t acc : string) :
  String.rev_app (s +:+ t) acc = String.rev_app t (String.rev_app s acc).
Proof.
  revert acc. induction s as [|c s IH]; intros acc; [done|].
  rewrite app_String. cbn. apply IH.
Qed.

Lemma rev_snoc (s : string) (c : ascii) :
  String.rev (s +:+ String c "") = String c (String.rev s).
Proof. unfold String.rev. by rewrite rev_app_append. Qed.

Lemma length_append (s t : string) :
  String.length (s +:+ t) = String.length s + String.length t.
Proof.
  induction s as [|c s IH]; [done|]. rewrite app_String. cbn. by rewrite IH.
Qed.

Lemma take_append (s t : string) : strings.take (String.length s) (s +:+ t) = s.
Proof.
  induction s as [|c s IH]; [by destruct t|].
  rewrite app_String. cbn. by rewrite IH.
Qed.

Lemma TrimSuffix_snoc (s : string) (c : ascii) :
  strings.TrimSuffix (s +:+ String c "") (String c "") = s.
Proof.
  unfold strings.TrimSuffix, strings.HasSuffix. rewrite rev_snoc.
  cbn [String.rev String.rev_app strings.HasPrefix].
  rewrite Ascii.eqb_refl. cbn [andb].
  rewrite length_append. cbn [String.length].
  replace (String.length s + 1 - 1) with (String.length s) by lia.
  apply take_append.
Qed.

Lemma TrimSuffix_none (s suffix : string) :
  strings.HasSuffix s suffix = false → strings.TrimSuffix s suffix = s.
Proof. intros Hs. unfold strings.TrimSuffix. by rewrite Hs. Qed.

Lemma Count_append (s t : string) (c : ascii) :
  strings.Count (s +:+ t) c = strings.Count s c + strings.Count t c.
Proof.
  induction s as [|c' s IH]; [done|].
  rewrite app_String. cbn [strings.Count]. rewrite IH. lia.
Qed.

Lemma Count_take (n : nat) (s : string) (c : ascii) :
  strings.Count (strings.take n s) c ≤ strings.Count s c.
Proof.
  revert s. induction n as [|n IH]; intros [|c' s]; cbn; try lia.
  specialize (IH s). lia.
Qed.

Lemma Count_TrimSuffix (s suffix : string) (c : ascii) :
  strings.Count s c = 0 → strings.Count (strings.TrimSuffix s suffix) c = 0.
Proof.
  intros Hs. unfold strings.TrimSuffix.
  destruct (strings.HasSuffix s suffix); [|done].
  pose proof (Count_take (String.length s - String.length suffix) s c). lia.
Qed.

Section TrailingDot.
Context {U : strings.Unicode} {T : publicsuffix.Table}.

(** One trailing dot does not count: a name and the same name followed
    by a dot have the same eTLD+1, and so the same key whenever the
    eTLD+1 can be computed.  The dot alone, like the empty string, has
    none. *)
Theorem effectiveTLDPlusOne_trailing_dot (s : string) :
  strings.HasSuffix s "." = false →
  effectiveTLDPlusOne (s +:+ ".") = effectiveTLDPlusOne s
  ∧ (∀ et, effectiveTLDPlusOne s = Some et →
           etld1Key (s +:+ ".") = etld1Key s)
  ∧ (effectiveTLDPlusOne s = None → etld1Key (s +:+ ".") = s +:+ ".").
Proof.
  intros Hs.
  assert (Heq : effectiveTLDPlusOne (s +:+ ".") = effectiveTLDPlusOne s).
  { unfold effectiveTLDPlusOne.
    by rewrite (TrimSuffix_snoc s "."), (TrimSuffix_none s "."). }
  unfold etld1Key. rewrite Heq. split_and!; [done| |].
  - by intros et ->.
  - by intros ->.
Qed.

End TrailingDot.

(** ** [splitLines] on a file of lines *)

Lemma splitLines_loop_line (l line rest : string) (out : list string) :
  strings.Count l LF = 0 →
  splitLines_loop line (l +:+ String LF rest) out
  = splitLines_loop "" rest
      (out ++ [strings.TrimSuffix (line +:+ l) (String CR "")]).
Proof.
  revert line. induction l as [|c l IH]; intros line Hl.
  - by rewrite app_empty_r.
  - rewrite app_String. cbn [strings.Count] in Hl.
    cbn [splitLines_loop]. fold LF.
    destruct (Ascii.eqb c LF); [done|].
    rewrite IH by done. by rewrite app_assoc_string.
Qed.

Lemma splitLines_loop_unlines (ending : string) (lines out : list string) :
  (ending = String LF "" ∨ ending = String CR (String LF "")) →
  Forall (fun l => strings.Count l LF = 0
                   ∧ strings.HasSuffix l (String CR "") = false) lines →
  splitLines_loop "" (unlines ending lines) out = (out ++ lines, "").
Proof.
  intros Hend Hall. revert out.
  induction Hall as [|l lines [Hl Hcr] _ IH]; intros out.
  - cbn. by rewrite app_nil_r.
  - cbn [unlines foldr]. fold (unlines ending lines).
    destruct Hend as [-> | ->].
    + change (String LF "" +:+ ?t) with (String LF t).
      rewrite splitLines_loop_line by done.
      change ("" +:+ l) with l. rewrite TrimSuffix_none by done.
      by rewrite IH, <-app_assoc.
    + change (String CR (String LF "") +:+ ?t)
        with (String CR "" +:+ String LF t).
      rewrite <-app_assoc_string, splitLines_loop_line.
      * change ("" +:+ ?t) with t. rewrite TrimSuffix_snoc.
        by rewrite IH, <-app_assoc.
      * rewrite Count_append, Hl. done.
Qed.

(** A file of lines, each ended by a newline or each by a carriage
    return and a newline, is read back as those lines, the empty ones
    included.  The lines are those that hold no newline and do not
    themselves end in a carriage return. *)
Theorem splitLines_unlines (lines : list string) :
  Forall (fun l => strings.Count l LF = 0
                   ∧ strings.HasSuffix l (String CR "") = false) lines →
  splitLines (unlines (String LF "") lines) = lines
  ∧ splitLines (unlines (String CR (String LF "")) lines) = lines.
Proof.
  intros Hall. unfold splitLines.
  rewrite !splitLines_loop_unlines by auto. done.
Qed.

(** No line that [splitLines] returns holds a newline; there are as
    many lines as the content has newlines, or one more; the empty
    content has no line. *)
Theorem splitLines_lines (s : string) :
  Forall (fun l => strings.Count l LF = 0) (splitLines s)
  ∧ length (splitLines s) ≤ S (strings.Count s LF)
  ∧ strings.Count s LF ≤ length (splitLines s)
  ∧ splitLines "" = [].
Proof.
  destruct (splitLines_Split s) as (lines & lst & Hs & ->).
  pose proof (Split_pieces s LF) as Hp. pose proof (length_Split s LF) as Hlen.
  rewrite Hs in Hp, Hlen. rewrite length_app in Hlen. cbn in Hlen.
  apply Forall_app in Hp as [Hlines Hlst].
  apply Forall_cons in Hlst as [Hlst _].
  split_and!.
  - apply Forall_app. split.
    + apply Forall_fmap. eapply Forall_impl; [done|].
      intros l. apply Count_TrimSuffix.
    + destruct (bool_decide _); repeat constructor.
      by apply Count_TrimSuffix.
  - rewrite length_app, length_fmap. destruct (bool_decide _); cbn; lia.
  - rewrite length_app, length_fmap. lia.
  - done.
Qed.

(** ** The retry loop of [fetch] *)

Section Fetch.
Context {World : Type} {P : Platform World}.

Lemma judge_inl (resp : option Response) (err : option error) (rsp : Response) :
  judge resp err = inl rsp
  ↔ resp = Some rsp ∧ err = None
    ∧ (200 ≤ StatusCode rsp)%Z ∧ (StatusCode rsp < 300)%Z.
Proof.
  unfold judge. destruct resp as [r|]; [|split; [done|by intros [? _]]].
  destruct (bool_decide_reflect (err = None)) as [He|He];
    destruct (Z.leb_spec 200 (StatusCode r));
    destruct (Z.ltb_spec (StatusCode r) 300); cbn [andb];
    (split; [intros [= <-]|intros ([= <-] & ? & ? & ?)]); try done; lia.
Qed.

Lemma fetch_loop_round (url : string) (n : nat) (i : Z) (w w' : World)
  (e0 e : option error) :
  http_NewRequest_ok url = true → failedRound url i w w' e →
  fetch_loop (S n) i e0 url w = fetch_loop n (i + 1) e url w'.
Proof.
  intros Hok (w1 & resp & err & Hdo & Hj & Hsel).
  cbn [fetch_loop]. rewrite Hok. unfold bind, lift at 1. rewrite Hdo.
  cbn [fst snd]. rewrite Hj. unfold lift. by rewrite Hsel.
Qed.

Lemma fetch_loop_rounds (url : string) (n m : nat) (i : Z) (w w' : World)
  (e0 e : option error) :
  http_NewRequest_ok url = true → failedRounds url n i w w' e0 e →
  fetch_loop (n + m) i e0 url w = fetch_loop m (i + Z.of_nat n) e url w'.
Proof.
  intros Hok. revert i w e0. induction n as [|n IH]; intros i w e0.
  - intros [-> ->]. by rewrite Z.add_0_r.
  - intros (w1 & e1 & Hr & Hrs). cbn [Nat.add].
    rewrite (fetch_loop_round url (n + m) i w w1 e0 e1) by done.
    rewrite (IH _ _ _ Hrs). f_equal. lia.
Qed.

Lemma fetch_rejected (url : string) (w : World) :
  http_NewRequest_ok url = false → fetch url w = (w, Panic).
Proof. intros Hok. unfold fetch. cbn. by rewrite Hok. Qed.

Lemma fetch_accepted (url : string) (w : World) :
  http_NewRequest_ok url = true → ∃ w' r, fetch url w = (w', Ret r).
Proof.
  intros Hok. unfold fetch. generalize 3 0%Z (@None error) w.
  induction n as [|n IH]; intros i e w0; [by eexists _, _|].
  cbn [fetch_loop]. rewrite Hok. unfold bind, lift at 1.
  destruct (client_Do url w0) as [w1 [resp err]]. cbn [fst snd].
  destruct (judge resp err) as [rsp|e'].
  - unfold lift. destruct (io_ReadAll_LimitReader _ _ w1). by eexists _, _.
  - unfold lift. destruct (select_After_Done _ w1) as [w2 [ctxErr|]];
      [by eexists _, _|]. apply IH.
Qed.

(** [fetch] panics on a URL of which no request is made, before it
    touches the world, and on no other URL: whatever the network and
    the context do, it then returns. *)
Theorem fetch_panics_iff_rejected (url : string) (w : World) :
  (http_NewRequest_ok url = false → fetch url w = (w, Panic))
  ∧ (http_NewRequest_ok url = true → ∃ w' r, fetch url w = (w', Ret r)).
Proof. split; [apply fetch_rejected|apply fetch_accepted]. Qed.

(** After three failed rounds, with waits of 500, 1000 and 1500
    milliseconds, the last of them after the last attempt, [fetch]
    returns the error of the third round. *)
Theorem fetch_exhausted (url : string) (w w' : World) (e : option error) :
  http_NewRequest_ok url = true →
  failedRounds url 3 0 w w' None e →
  fetch url w = (w', Ret (match e with Some e => Err e | None => Ok "" end)).
Proof.
  intros Hok Hr. unfold fetch. change 3 with (3 + 0).
  by rewrite (fetch_loop_rounds url 3 0 0 w w' None e).
Qed.

(** A response with a status from 200 to 299 and no error, at the first
    attempt or after one or two failed rounds, ends [fetch]: the result
    is what reading the body gives, at most [10<<20] bytes of it. *)
Theorem fetch_succeeds_after_retries (url : string) (k : nat)
  (w w1 w2 : World) (e : option error) (rsp : Response) :
  http_NewRequest_ok url = true → k < 3 →
  failedRounds url k 0 w w1 None e →
  client_Do url w1 = (w2, (Some rsp, None)) →
  (200 ≤ StatusCode rsp)%Z → (StatusCode rsp < 300)%Z →
  fetch url w = lift (io_ReadAll_LimitReader (Body rsp) (Z.shiftl 10 20)) w2.
Proof.
  intros Hok Hk Hr Hdo H2 H3. unfold fetch.
  replace 3 with (k + S (2 - k)) by lia.
  rewrite (fetch_loop_rounds url k _ 0 w w1 None e) by done.
  cbn [fetch_loop]. rewrite Hok. unfold bind, lift at 1. rewrite Hdo.
  cbn [fst snd].
  by rewrite (proj2 (judge_inl (Some rsp) None rsp)).
Qed.

(** When the context is done during the wait that follows a failed
    attempt, [fetch] returns the error of the context at once: no
    further attempt is made and the error of the attempt is dropped. *)
Theorem fetch_cancelled (url : string) (k : nat) (w w1 w2 w3 : World)
  (e e' : option error) (resp : option Response) (err : option error)
  (ctxErr : error) :
  http_NewRequest_ok url = true → k < 3 →
  failedRounds url k 0 w w1 None e →
  client_Do url w1 = (w2, (resp, err)) → judge resp err = inr e' →
  select_After_Done ((Z.of_nat k + 1) * 500) w2 = (w3, Some ctxErr) →
  fetch url w = (w3, Ret (Err ctxErr)).
Proof.
  intros Hok Hk Hr Hdo Hj Hsel. unfold fetch.
  replace 3 with (k + S (2 - k)) by lia.
  rewrite (fetch_loop_rounds url k _ 0 w w1 None e) by done.
  cbn [fetch_loop]. rewrite Hok. unfold bind, lift at 1. rewrite Hdo.
  cbn [fst snd]. rewrite Hj. unfold lift. rewrite Z.add_0_l. by rewrite Hsel.
Qed.

End Fetch.

(** ** Gathering the sources *)

Section Gathering.
Context {U : strings.Unicode} {J : json.Codec}.
Context {World : Type} {P : Platform World}.

Lemma Join_app (l k : list string) (sep : string) :
  l ≠ [] → k ≠ [] →
  strings.Join (l ++ k) sep = strings.Join l sep +:+ sep +:+ strings.Join k sep.
Proof.
  intros Hl Hk. induction l as [|e l IH]; [done|].
  destruct l as [|e' l].
  - destruct k; [done|]. by rewrite Join_singleton.
  - cbn [app] in IH |- *. rewrite !Join_cons_cons, IH by done.
    by rewrite !app_assoc_string.
Qed.

Lemma diagnostic_app (l k : list string) :
  diagnostic (l ++ k) = joinDiagnostics (diagnostic l) (diagnostic k).
Proof.
  destruct l as [|e l]; [by destruct k|].
  destruct k as [|e' k]; [by rewrite app_nil_r|].
  unfold diagnostic at 2 3. cbn [joinDiagnostics Error].
  rewrite <-Join_app by done. done.
Qed.

(** A loop of [obtainAllDomains] adds to what has been gathered: run
    from any state, it appends what it would gather from the empty
    one. *)
Lemma forRange_obtainFrom (get : string → M World (result (list string)))
  (urls out0 errs0 : list string) (w : World) :
  forRange (obtainFrom get) (out0, errs0) urls w
  = match forRange (obtainFrom get) ([], []) urls w with
    | (w', Ret (out, errs)) => (w', Ret (out0 ++ out, errs0 ++ errs))
    | (w', Panic) => (w', Panic)
    end.
Proof.
  revert out0 errs0 w. induction urls as [|u urls IH]; intros out0 errs0 w.
  - cbn. by rewrite !app_nil_r.
  - cbn [forRange]. unfold bind. unfold obtainFrom at 1 3.
    destruct (skipURL u).
    + cbn. apply IH.
    + unfold bind. destruct (get u w) as [w1 [[lines|e]|]]; [| |done].
      * cbn. rewrite (IH (out0 ++ lines)), (IH lines).
        destruct (forRange _ _ urls w1) as [w2 [[out errs]|]]; [|done].
        by rewrite <-app_assoc.
      * cbn. rewrite (IH out0 (errs0 ++ [_])), (IH [] [_]).
        destruct (forRange _ _ urls w1) as [w2 [[out errs]|]]; [|done].
        by rewrite <-app_assoc.
Qed.

(** [obtainAllDomains] in terms of its two loops. *)
Lemma obtainAllDomains_loops (textURLs jsonURLs : list string) (w : World) :
  obtainAllDomains textURLs jsonURLs w
  = match forRange (obtainFrom fetchTextLines) ([], []) textURLs w with
    | (w1, Ret (out1, errs1)) =>
        match forRange (obtainFrom fetchJSONStrings) ([], []) jsonURLs w1 with
        | (w2, Ret (out2, errs2)) =>
            (w2, Ret (out1 ++ out2, diagnostic (errs1 ++ errs2)))
        | (w2, Panic) => (w2, Panic)
        end
    | (w1, Panic) => (w1, Panic)
    end.
Proof.
  unfold obtainAllDomains, bind.
  destruct (forRange _ _ textURLs w) as [w1 [[out1 errs1]|]]; [|done].
  rewrite forRange_obtainFrom.
  destruct (forRange _ _ jsonURLs w1) as [w2 [[out2 errs2]|]]; [|done].
  unfold diagnostic. by destruct (errs1 ++ errs2).
Qed.

(** Comment lines and blank lines of a source declaration are passed
    over: when there is nothing else, nothing is fetched, nothing is
    gathered and there is no diagnostic. *)
Theorem obtainAllDomains_skips (textURLs jsonURLs : list string) (w : World) :
  Forall (fun u => skipURL u = true) (textURLs ++ jsonURLs) →
  obtainAllDomains textURLs jsonURLs w = (w, Ret ([], None)).
Proof.
  intros [Ht Hj]%Forall_app.
  assert (Hskip : ∀ get urls, Forall (fun u => skipURL u = true) urls →
    forRange (obtainFrom get) ([], []) urls w = (w, Ret ([], []))).
  { intros get urls Hall. induction Hall as [|u urls Hu _ IH]; [done|].
    cbn [forRange]. unfold bind, obtainFrom at 1. by rewrite Hu. }
  rewrite obtainAllDomains_loops. by rewrite !Hskip.
Qed.

(** The text sources are gathered before the JSON sources: what both
    give is what the text sources give alone followed by what the JSON
    sources give alone, lines and diagnostics alike. *)
Theorem obtainAllDomains_text_then_json (textURLs jsonURLs : list string)
  (w w1 w2 : World) (out1 out2 : list string) (err1 err2 : option error) :
  obtainAllDomains textURLs [] w = (w1, Ret (out1, err1)) →
  obtainAllDomains [] jsonURLs w1 = (w2, Ret (out2, err2)) →
  obtainAllDomains textURLs jsonURLs w
  = (w2, Ret (out1 ++ out2, joinDiagnostics err1 err2)).
Proof.
  rewrite !obtainAllDomains_loops. cbn [forRange]. unfold ret.
  destruct (forRange _ _ textURLs w) as [w1' [[o1 e1]|]]; [|done].
  rewrite !app_nil_r. intros [= -> <- <-].
  destruct (forRange _ _ jsonURLs w1) as [w2' [[o2 e2]|]]; [|done].
  cbn [app]. intros [= -> <- <-]. by rewrite diagnostic_app.
Qed.

(** A text source that is not passed over gives its lines, put before
    those of the sources that follow, or, when it cannot be fetched, the
    diagnostic [url: error], put before theirs; the sources that follow
    are gathered either way. *)
Theorem obtainAllDomains_text_source (u : string)
  (textURLs jsonURLs : list string) (w w1 w2 : World)
  (r : result (list string)) (out : list string) (err : option error) :
  skipURL u = false →
  fetchTextLines u w = (w1, Ret r) →
  obtainAllDomains textURLs jsonURLs w1 = (w2, Ret (out, err)) →
  obtainAllDomains (u :: textURLs) jsonURLs w
  = (w2, Ret (match r with
              | Ok lines => (lines ++ out, err)
              | Err e =>
                  (out, joinDiagnostics
                          (Some (errorString (u +:+ ": " +:+ Error e))) err)
              end)).
Proof.
  intros Hu Hf Hrest. rewrite obtainAllDomains_loops in Hrest |- *.
  assert (Hhead : ∀ st,
    forRange (obtainFrom fetchTextLines) st (u :: textURLs) w
    = forRange (obtainFrom fetchTextLines)
        (match r with
         | Ok lines => (st.1 ++ lines, st.2)
         | Err e => (st.1, st.2 ++ [u +:+ ": " +:+ Error e])
         end) textURLs w1).
  { intros [out0 errs0]. cbn [forRange]. unfold bind at 1.
    unfold obtainFrom at 1. rewrite Hu. unfold bind. rewrite Hf.
    by destruct r. }
  rewrite Hhead.
  destruct r as [lines|e]; cbn [fst snd app]; rewrite forRange_obtainFrom;
    (destruct (forRange _ _ textURLs w1) as [w1' [[o1 e1]|]]; [|done]);
    (destruct (forRange _ _ jsonURLs w1') as [w2' [[o2 e2]|]]; [|done]);
    injection Hrest as -> <- <-.
  - by rewrite <-app_assoc.
  - by rewrite <-(app_assoc [_]), (diagnostic_app [_]).
Qed.

(** The same for a JSON source, when there is no text source. *)
Theorem obtainAllDomains_json_source (u : string) (jsonURLs : list string)
  (w w1 w2 : World) (r : result (list string)) (out : list string)
  (err : option error) :
  skipURL u = false →
  fetchJSONStrings u w = (w1, Ret r) →
  obtainAllDomains [] jsonURLs w1 = (w2, Ret (out, err)) →
  obtainAllDomains [] (u :: jsonURLs) w
  = (w2, Ret (match r with
              | Ok arr => (arr ++ out, err)
              | Err e =>
                  (out, joinDiagnostics
                          (Some (errorString (u +:+ ": " +:+ Error e))) err)
              end)).
Proof.
  intros Hu Hf Hrest.
  assert (Hjson : ∀ urls w0,
    obtainAllDomains [] urls w0
    = match forRange (obtainFrom fetchJSONStrings) ([], []) urls w0 with
      | (w2, Ret (out2, errs2)) => (w2, Ret (out2, diagnostic errs2))
      | (w2, Panic) => (w2, Panic)
      end) by (intros; by rewrite obtainAllDomains_loops).
  rewrite Hjson in Hrest |- *.
  assert (Hhead :
    forRange (obtainFrom fetchJSONStrings) ([], []) (u :: jsonURLs) w
    = forRange (obtainFrom fetchJSONStrings)
        (match r with
         | Ok arr => (arr, [])
         | Err e => ([], [u +:+ ": " +:+ Error e])
         end) jsonURLs w1).
  { cbn [forRange]. unfold bind at 1.
    unfold obtainFrom at 1. rewrite Hu. unfold bind. rewrite Hf.
    by destruct r. }
  rewrite Hhead.
  destruct r as [arr|e]; rewrite forRange_obtainFrom;
    (destruct (forRange _ _ jsonURLs w1) as [w2' [[o2 e2]|]]; [|done]);
    cbn [app] in Hrest |- *; injection Hrest as -> <- <-.
  - done.
  - do 3 f_equal. apply (diagnostic_app [_] e2).
Qed.

End Gathering.

(** ** When [Run] returns *)

Section Returning.
Context {U : strings.Unicode} {T : publicsuffix.Table} {J : json.Codec}.
Context {World : Type} {P : Platform World}.

Lemma fetchTextLines_panicsOnRejected : panicsOnRejected fetchTextLines.
Proof.
  intros u w. pose proof (fetch_rejected u w) as Hp.
  pose proof (fetch_accepted u w) as Hr.
  unfold fetchTextLines, bind. split; intros Hok.
  - by rewrite Hp.
  - destruct (Hr Hok) as (w' & [b|e] & ->); by eexists _, _.
Qed.

Lemma fetchJSONStrings_panicsOnRejected : panicsOnRejected fetchJSONStrings.
Proof.
  intros u w. pose proof (fetch_rejected u w) as Hp.
  pose proof (fetch_accepted u w) as Hr.
  unfold fetchJSONStrings, bind. split; intros Hok.
  - by rewrite Hp.
  - destruct (Hr Hok) as (w' & [b|e] & ->); [|by eexists _, _].
    destruct (json.Unmarshal b); by eexists _, _.
Qed.

Lemma forRange_returns (get : string → M World (result (list string)))
  (urls : list string) (st : list string * list string) (w : World) :
  panicsOnRejected get → Forall (fun u => ¬ rejected u) urls →
  ∃ w' st', forRange (obtainFrom get) st urls w = (w', Ret st').
Proof.
  intros Hget Hall. revert st w.
  induction Hall as [|u urls Hu _ IH]; intros [out errs] w;
    [by eexists _, _|].
  cbn [forRange]. unfold bind at 1. unfold obtainFrom at 1.
  destruct (skipURL u) eqn:Hskip; [apply IH|].
  destruct (http_NewRequest_ok u) eqn:Hok; [|by destruct Hu].
  unfold bind. destruct (proj2 (Hget u w) Hok) as (w1 & [lines|e] & ->);
    apply IH.
Qed.

Lemma forRange_panics (get : string → M World (result (list string)))
  (urls : list string) (st : list string * list string) (w : World) :
  panicsOnRejected get → Exists rejected urls →
  ∃ w', forRange (obtainFrom get) st urls w = (w', Panic).
Proof.
  intros Hget Hex. revert st w.
  induction urls as [|u urls IH]; intros [out errs] w;
    [by apply Exists_nil in Hex|].
  cbn [forRange]. unfold bind at 1. unfold obtainFrom at 1.
  destruct (skipURL u) eqn:Hskip.
  - apply IH. apply Exists_cons in Hex as [[Hs _]|Hex]; [congruence|done].
  - destruct (http_NewRequest_ok u) eqn:Hok.
    + unfold bind. destruct (proj2 (Hget u w) Hok) as (w1 & [lines|e] & ->);
        apply IH; apply Exists_cons in Hex as [[_ Hr]|Hex]; congruence || done.
    + unfold bind. rewrite (proj1 (Hget u w) Hok). by eexists.
Qed.

Lemma obtainAllDomains_returns (textURLs jsonURLs : list string) (w : World) :
  Forall (fun u => ¬ rejected u) (textURLs ++ jsonURLs) →
  ∃ w' r, obtainAllDomains textURLs jsonURLs w = (w', Ret r).
Proof.
  intros [Ht Hj]%Forall_app. rewrite obtainAllDomains_loops.
  destruct (forRange_returns fetchTextLines textURLs ([], []) w)
    as (w1 & [o1 e1] & ->); [apply fetchTextLines_panicsOnRejected|done|].
  destruct (forRange_returns fetchJSONStrings jsonURLs ([], []) w1)
    as (w2 & [o2 e2] & ->); [apply fetchJSONStrings_panicsOnRejected|done|].
  by eexists _, _.
Qed.

Lemma obtainAllDomains_panics (textURLs jsonURLs : list string) (w : World) :
  Exists rejected (textURLs ++ jsonURLs) →
  ∃ w', obtainAllDomains textURLs jsonURLs w = (w', Panic).
Proof.
  intros Hex. rewrite obtainAllDomains_loops.
  destruct (decide (Exists rejected textURLs)) as [Ht|Ht].
  - destruct (forRange_panics fetchTextLines textURLs ([], []) w)
      as (w1 & ->); [apply fetchTextLines_panicsOnRejected|done|by eexists].
  - apply Exists_app in Hex as [Hex|Hex]; [done|].
    apply not_Exists_Forall in Ht; [|intros ?; apply _].
    destruct (forRange_returns fetchTextLines textURLs ([], []) w)
      as (w1 & [o1 e1] & ->); [apply fetchTextLines_panicsOnRejected|done|].
    destruct (forRange_panics fetchJSONStrings jsonURLs ([], []) w1)
      as (w2 & ->); [apply fetchJSONStrings_panicsOnRejected|done|by eexists].
Qed.

Lemma writeOutputs_returns (cfg : Config) (deny allow : list string)
  (w : World) :
  ∃ w' err, writeOutputs cfg deny allow w = (w', Ret err).
Proof.
  rewrite writeOutputs_untilFailure.
  destruct (succeed_or_fail (outputWrites cfg deny allow) w
              (outputWrites_return cfg deny allow))
    as [[w3 Hs]|(pre & wr & post & w3 & w4 & werr & -> & Hs & Hwr)].
  - rewrite (untilFailure_succeed _ _ _ Hs). by eexists _, _.
  - rewrite (untilFailure_abort _ _ _ _ _ _ _ Hs Hwr). by eexists _, _.
Qed.

(** [Run] returns, with counts or with a write error, whenever a request
    can be made of every line of the source declarations that is not
    passed over: failing fetches, undecodable contents and a done
    context do not keep it from returning. *)
Theorem Run_returns (cfg : Config) (w : World) :
  Forall (fun u => ¬ rejected u) (declaredURLs cfg) →
  ∃ w' denyCount allowCount err,
    Run cfg w = (w', Ret (denyCount, allowCount, err)).
Proof.
  unfold declaredURLs. rewrite app_assoc.
  intros [Hdeny Hallow]%Forall_app. unfold Run. unfold bind at 1.
  destruct (obtainAllDomains_returns _ _ w Hdeny) as (w1 & [deny derr] & ->).
  unfold bind at 1.
  destruct (obtainAllDomains_returns _ _ w1 Hallow) as (w2 & [allow aerr] & ->).
  destruct (reconcile deny allow (SecureLocal cfg)) as [fd fa].
  unfold bind.
  destruct (writeOutputs_returns cfg fd fa w2) as (w3 & [werr|] & ->).
  - destruct (combineFetchErrors derr aerr); by eexists _, _, _, _.
  - by eexists _, _, _, _.
Qed.

(** [Run] panics when the source declarations hold a line that is not
    passed over and of which no request can be made.  The panic comes
    from one of the two gathering passes, so the world is left as that
    pass left it: no output is written. *)
Theorem Run_panics_on_rejected_url (cfg : Config) (w : World) :
  Exists rejected (declaredURLs cfg) →
  ∃ w', Run cfg w = (w', Panic)
        ∧ (obtainAllDomains (TextDeny cfg) (JSONDeny cfg) w = (w', Panic)
           ∨ ∃ w1 r,
               obtainAllDomains (TextDeny cfg) (JSONDeny cfg) w = (w1, Ret r)
               ∧ obtainAllDomains (TextAllow cfg) (JSONAllow cfg) w1
                 = (w', Panic)).
Proof.
  unfold declaredURLs. rewrite app_assoc. intros Hex.
  unfold Run. unfold bind at 1.
  destruct (decide (Exists rejected (TextDeny cfg ++ JSONDeny cfg)))
    as [Hd|Hd].
  - destruct (obtainAllDomains_panics _ _ w Hd) as (w1 & ->).
    exists w1. split; [done|by left].
  - apply Exists_app in Hex as [Hex|Hex]; [done|].
    apply not_Exists_Forall in Hd; [|intros ?; apply _].
    destruct (obtainAllDomains_returns _ _ w Hd) as (w1 & [deny derr] & ->).
    unfold bind at 1.
    destruct (obtainAllDomains_panics _ _ w1 Hex) as (w2 & Hp). rewrite Hp.
    exists w2. split; [done|]. right. by eexists _, _.
Qed.

End Returning.

(** ** Reading back what [writeText] writes *)

Lemma splitLines_loop_last (l line : string) (out : list string) :
  strings.Count l LF = 0 → splitLines_loop line l out = (out, line +:+ l).
Proof.
  revert line. induction l as [|c l IH]; intros line Hl.
  - by rewrite app_empty_r.
  - cbn [strings.Count] in Hl. cbn [splitLines_loop]. fold LF.
    destruct (Ascii.eqb c LF); [done|].
    rewrite IH by done. by rewrite app_assoc_string.
Qed.

(** The text artifact, which is the entries joined by newlines, is read
    back by [splitLines] as those entries, when each entry is non-empty,
    holds no newline and does not end in a carriage return. *)
Theorem splitLines_Join (lines : list string) :
  Forall (fun l => l ≠ "" ∧ strings.Count l LF = 0
                   ∧ strings.HasSuffix l (String CR "") = false) lines →
  splitLines (strings.Join lines (String LF "")) = lines.
Proof.
  intros Hall. unfold splitLines.
  enough (Hloop : ∀ out,
    lines ≠ [] →
    ∃ init lst,
      lines = init ++ [lst]
      ∧ splitLines_loop "" (strings.Join lines (String LF "")) out
        = (out ++ init, lst)
      ∧ lst ≠ "" ∧ strings.HasSuffix lst (String CR "") = false).
  { destruct lines as [|l lines]; [done|].
    destruct (Hloop [] ltac:(done)) as (init & lst & -> & -> & Hne & Hcr).
    change (String "013" "") with (String CR "").
    by rewrite Hcr, bool_decide_true. }
  induction Hall as [|l lines (Hne & Hl & Hcr) Hall IH]; intros out Hnil;
    [done|].
  destruct lines as [|l' lines].
  - exists [], l. rewrite Join_singleton, splitLines_loop_last by done.
    by rewrite app_nil_r.
  - rewrite Join_cons_cons. change (String LF "" +:+ ?t) with (String LF t).
    rewrite splitLines_loop_line by done. change ("" +:+ l) with l.
    rewrite TrimSuffix_none by done.
    destruct (IH (out ++ [l]) ltac:(done))
      as (init & lst & -> & -> & Hrest).
    exists (l :: init), lst. split; [done|]. split; [|done].
    by rewrite <-app_assoc.
Qed.

(** ** The further properties on the test doubles *)

Lemma uniqueSorted_fixpoint_witness :
  uniqueSorted ["example.com"; "spam.io"] = ["example.com"; "spam.io"].
Proof.
  apply uniqueSorted_fixpoint.
  - repeat constructor.
  - apply (bool_decide_unpack _). vm_compute. exact I.
Defined.

Lemma reconcile_same_entries_witness :
  reconcile (U:=Sim.asciiOnly) (T:=Sim.table)
    ["Example.COM"; "*.spam.io"; "trusted.org"] ["trusted.org"] ["good.net"]
  = reconcile (U:=Sim.asciiOnly) (T:=Sim.table)
      ["trusted.org"; "*.spam.io"; "Example.COM"; "*.spam.io"]
      ["trusted.org"; "trusted.org"] ["good.net"].
Proof.
  apply (reconcile_same_entries (U:=Sim.asciiOnly) (T:=Sim.table));
    intros s; rewrite !elem_of_cons, !elem_of_nil; tauto.
Defined.

Lemma normalizeAndFilter_idempotent_witness :
  normalizeAndFilter (U:=Sim.asciiOnly)
    (normalizeAndFilter (U:=Sim.asciiOnly) ["  Example.COM "; "# list"; ""])
  = normalizeAndFilter (U:=Sim.asciiOnly) ["  Example.COM "; "# list"; ""].
Proof.
  apply (normalizeAndFilter_idempotent (U:=Sim.asciiOnly)).
  repeat constructor.
Defined.

Lemma effectiveTLDPlusOne_trailing_dot_witness :
  effectiveTLDPlusOne (T:=Sim.table) ("mail.good.net" +:+ ".")
  = effectiveTLDPlusOne (T:=Sim.table) "mail.good.net".
Proof.
  apply (effectiveTLDPlusOne_trailing_dot (T:=Sim.table) "mail.good.net").
  vm_compute. reflexivity.
Defined.

Lemma splitLines_unlines_witness :
  splitLines (unlines (String CR (String LF "")) ["a.com"; ""; "b.com"])
  = ["a.com"; ""; "b.com"].
Proof.
  apply (splitLines_unlines ["a.com"; ""; "b.com"]).
  repeat constructor.
Defined.

Lemma splitLines_Join_witness :
  splitLines (strings.Join ["example.com"; "spam.io"] (String LF ""))
  = ["example.com"; "spam.io"].
Proof.
  apply (splitLines_Join ["example.com"; "spam.io"]).
  repeat constructor; discriminate.
Defined.

(** The source that cannot be reached: three attempts, three seconds of
    waiting, and the error of the last attempt. *)
Lemma fetch_exhausted_witness :
  fetch (P:=Sim.platform) Sim.goneURL Sim.world
  = ({| Sim.web := Sim.web Sim.world; Sim.readOnly := ["lists/allow.txt"];
        Sim.files := []; Sim.waited := 3000 |},
     Ret (Err (errorString "no such host"))).
Proof.
  apply (fetch_exhausted (P:=Sim.platform) Sim.goneURL Sim.world
           {| Sim.web := Sim.web Sim.world;
              Sim.readOnly := ["lists/allow.txt"];
              Sim.files := []; Sim.waited := 3000 |}
           (Some (errorString "no such host"))).
  - vm_compute. reflexivity.
  - cbn [failedRounds]. unfold failedRound.
    repeat (eexists; try split); reflexivity.
Defined.

(** On the flaky network the first attempt fails, and the second, half a
    second later, is answered. *)
Lemma fetch_succeeds_after_retries_witness :
  fetch (P:=SimNet.flaky) Sim.allowURL Sim.world
  = ({| Sim.web := Sim.web Sim.world; Sim.readOnly := ["lists/allow.txt"];
        Sim.files := []; Sim.waited := 500 |},
     Ret (Ok "null")).
Proof.
  rewrite (fetch_succeeds_after_retries (P:=SimNet.flaky) Sim.allowURL 1
             Sim.world
             {| Sim.web := Sim.web Sim.world;
                Sim.readOnly := ["lists/allow.txt"];
                Sim.files := []; Sim.waited := 500 |}
             {| Sim.web := Sim.web Sim.world;
                Sim.readOnly := ["lists/allow.txt"];
                Sim.files := []; Sim.waited := 500 |}
             (Some (errorString "connection reset by peer"))
             {| StatusCode := 200; Body := "null" |}).
  - vm_compute. reflexivity.
  - vm_compute. reflexivity.
  - lia.
  - cbn [failedRounds]. unfold failedRound.
    repeat (eexists; try split); reflexivity.
  - vm_compute. reflexivity.
  - cbn. lia.
  - cbn. lia.
Defined.

(** With a deadline 700 milliseconds into the waiting, the wait that
    follows the second attempt is cut short. *)
Lemma fetch_cancelled_witness :
  fetch (P:=SimNet.hurried 700) Sim.goneURL Sim.world
  = ({| Sim.web := Sim.web Sim.world; Sim.readOnly := ["lists/allow.txt"];
        Sim.files := []; Sim.waited := 500 |},
     Ret (Err (errorString "context deadline exceeded"))).
Proof.
  apply (fetch_cancelled (P:=SimNet.hurried 700) Sim.goneURL 1 Sim.world
           {| Sim.web := Sim.web Sim.world;
              Sim.readOnly := ["lists/allow.txt"];
              Sim.files := []; Sim.waited := 500 |}
           {| Sim.web := Sim.web Sim.world;
              Sim.readOnly := ["lists/allow.txt"];
              Sim.files := []; Sim.waited := 500 |}
           {| Sim.web := Sim.web Sim.world;
              Sim.readOnly := ["lists/allow.txt"];
              Sim.files := []; Sim.waited := 500 |}
           (Some (errorString "no such host"))
           (Some (errorString "no such host")) None
           (Some (errorString "no such host"))).
  - vm_compute. reflexivity.
  - lia.
  - cbn [failedRounds]. unfold failedRound.
    repeat (eexists; try split); reflexivity.
  - vm_compute. reflexivity.
  - reflexivity.
  - vm_compute. reflexivity.
Defined.

Lemma obtainAllDomains_skips_witness :
  obtainAllDomains (U:=Sim.asciiOnly) (J:=Sim.codec) (P:=Sim.platform)
    ["# mirrors"; ""] ["   "] Sim.world
  = (Sim.world, Ret ([], None)).
Proof.
  apply (obtainAllDomains_skips (U:=Sim.asciiOnly) (J:=Sim.codec)
           (P:=Sim.platform)).
  repeat constructor.
Defined.

Lemma obtainAllDomains_text_then_json_witness :
  obtainAllDomains (U:=Sim.asciiOnly) (J:=Sim.codec) (P:=Sim.platform)
    [Sim.goneURL; Sim.denyURL] [Sim.allowURL; "http://lists.test/none.json"]
    Sim.world
  = ({| Sim.web := Sim.web Sim.world; Sim.readOnly := ["lists/allow.txt"];
        Sim.files := []; Sim.waited := 6000 |},
     Ret (["Example.COM" +:+ String CR ""; "*.spam.io"; ""],
          Some (errorString
                  ("http://lists.test/gone.txt: no such host; "
                   +:+ "http://lists.test/none.json: no such host")))).
Proof.
  apply (obtainAllDomains_text_then_json (U:=Sim.asciiOnly) (J:=Sim.codec)
           (P:=Sim.platform)
           [Sim.goneURL; Sim.denyURL]
           [Sim.allowURL; "http://lists.test/none.json"] Sim.world
           {| Sim.web := Sim.web Sim.world;
              Sim.readOnly := ["lists/allow.txt"];
              Sim.files := []; Sim.waited := 3000 |}
           {| Sim.web := Sim.web Sim.world;
              Sim.readOnly := ["lists/allow.txt"];
              Sim.files := []; Sim.waited := 6000 |}
           ["Example.COM" +:+ String CR ""; "*.spam.io"; ""] []
           (Some (errorString "http://lists.test/gone.txt: no such host"))
           (Some (errorString "http://lists.test/none.json: no such host"))).
  - vm_compute. reflexivity.
  - vm_compute. reflexivity.
Defined.

Lemma obtainAllDomains_text_source_witness :
  obtainAllDomains (U:=Sim.asciiOnly) (J:=Sim.codec) (P:=Sim.platform)
    [Sim.goneURL; Sim.denyURL] [] Sim.world
  = ({| Sim.web := Sim.web Sim.world; Sim.readOnly := ["lists/allow.txt"];
        Sim.files := []; Sim.waited := 3000 |},
     Ret (["Example.COM" +:+ String CR ""; "*.spam.io"; ""],
          Some (errorString "http://lists.test/gone.txt: no such host"))).
Proof.
  apply (obtainAllDomains_text_source (U:=Sim.asciiOnly) (J:=Sim.codec)
           (P:=Sim.platform) Sim.goneURL [Sim.denyURL] [] Sim.world
           {| Sim.web := Sim.web Sim.world;
              Sim.readOnly := ["lists/allow.txt"];
              Sim.files := []; Sim.waited := 3000 |}
           {| Sim.web := Sim.web Sim.world;
              Sim.readOnly := ["lists/allow.txt"];
              Sim.files := []; Sim.waited := 3000 |}
           (Err (errorString "no such host"))
           ["Example.COM" +:+ String CR ""; "*.spam.io"; ""] None).
  - vm_compute. reflexivity.
  - vm_compute. reflexivity.
  - vm_compute. reflexivity.
Defined.

Lemma obtainAllDomains_json_source_witness :
  obtainAllDomains (U:=Sim.asciiOnly) (J:=Sim.codec) (P:=Sim.platform)
    [] [Sim.denyURL; Sim.allowURL] Sim.world
  = (Sim.world,
     Ret ([],
          Some (errorString
                  ("http://lists.test/deny.txt: decode json: "
                   +:+ "invalid character looking for beginning of value")))).
Proof.
  apply (obtainAllDomains_json_source (U:=Sim.asciiOnly) (J:=Sim.codec)
           (P:=Sim.platform) Sim.denyURL [Sim.allowURL] Sim.world Sim.world
           Sim.world (Err (wrapError
                     ("decode json: "
                      +:+ "invalid character looking for beginning of value")
                     (errorString
                        "invalid character looking for beginning of value")))
           [] None).
  - vm_compute. reflexivity.
  - vm_compute. reflexivity.
  - vm_compute. reflexivity.
Defined.

Lemma Run_returns_witness :
  ∃ w' denyCount allowCount err,
    Run (U:=Sim.asciiOnly) (T:=Sim.table) (J:=Sim.codec) (P:=Sim.platform)
      Sim.config Sim.world
    = (w', Ret (denyCount, allowCount, err)).
Proof.
  apply (Run_returns (U:=Sim.asciiOnly) (T:=Sim.table) (J:=Sim.codec)
           (P:=Sim.platform) Sim.config Sim.world).
  apply (bool_decide_unpack _). vm_compute. exact I.
Defined.

(** A tab in a declaration line: [Run] panics in the world it started
    in. *)
Lemma Run_panics_on_rejected_url_witness :
  ∃ w',
    Run (U:=Sim.asciiOnly) (T:=Sim.table) (J:=Sim.codec) (P:=Sim.platform)
      SimNet.badConfig Sim.world = (w', Panic)
    ∧ (obtainAllDomains (U:=Sim.asciiOnly) (J:=Sim.codec) (P:=Sim.platform)
         (TextDeny SimNet.badConfig) (JSONDeny SimNet.badConfig) Sim.world
       = (w', Panic)
       ∨ ∃ w1 r,
           obtainAllDomains (U:=Sim.asciiOnly) (J:=Sim.codec)
             (P:=Sim.platform)
             (TextDeny SimNet.badConfig) (JSONDeny SimNet.badConfig) Sim.world
           = (w1, Ret r)
           ∧ obtainAllDomains (U:=Sim.asciiOnly) (J:=Sim.codec)
               (P:=Sim.platform)
               (TextAllow SimNet.badConfig) (JSONAllow SimNet.badConfig) w1
             = (w', Panic)).
Proof.
  apply (Run_panics_on_rejected_url (U:=Sim.asciiOnly) (T:=Sim.table)
           (J:=Sim.codec) (P:=Sim.platform) SimNet.badConfig Sim.world).
  apply (bool_decide_unpack _). vm_compute. exact I.
Defined.
